(** * Word riddle game: the puzzle engine of [src/public/src/App.js]

    A shallow embedding of the React component [App] and of its helpers
    ([normalizeWord], [makeLetterBank], [shuffle], [rebuildWithPunctuation],
    [parseTXT], [parseCSV], [dedupe]), followed by the properties of the
    bank generator, the engine's state machine and the ingestion pipeline.

    Conventions of the embedding.
    - A JavaScript string is the list of its UTF-16 code units ([list N]).
    - [Math.random] is an oracle: a stream of naturals, one per call;
      [Math.floor(Math.random() * n)] is the head of the stream modulo [n],
      so every outcome in [0, n) is covered by some oracle.
    - React state is a record; an event handler is a function on it, run to
      completion before the next one (handlers read the values of the last
      render and queue functional updates, which is the same thing here).
    - The session store is the value under the key [custom-words], if any;
      what [JSON.parse] returns on an uploaded text, and whether
      [sessionStorage.setItem] throws on the uploaded list, come with the
      upload.
    - Case mapping is the runtime's on ASCII, on the Cyrillic block
      U+0400..U+045F and on the sharp s; see [lowerUnit] and [upperUnits]. *)

From Stdlib Require Import NArith String Ascii.
From stdpp Require Import base decidable option numbers list gmap.

Open Scope N_scope.
Open Scope nat_scope.

(** ** Strings *)

Abbreviation jsstring := (list N).

(** An ASCII literal as a JavaScript string. *)
Definition str (s : string) : jsstring :=
  (λ a, N_of_ascii a) <$> list_ascii_of_string s.

Definition between (lo hi c : N) : bool := ((lo <=? c) && (c <=? hi))%N.

(** The class [\s] of regular expressions, which is also what
    [String.prototype.trim] strips: white space and line terminators. *)
Definition isSpace (c : N) : bool :=
  between 9 13 c || (c =? 32)%N || (c =? 160)%N || (c =? 0x1680)%N
  || between 0x2000 0x200A c || (c =? 0x2028)%N || (c =? 0x2029)%N
  || (c =? 0x202F)%N || (c =? 0x205F)%N || (c =? 0x3000)%N || (c =? 0xFEFF)%N.

(** The class [[\-_'`.,!?«»\(\)]] of [normalizeWord]. *)
Definition isPunct (c : N) : bool :=
  bool_decide (c ∈ [45; 95; 39; 96; 46; 44; 33; 63; 0xAB; 0xBB; 40; 41]%N).

(** Case mapping of the runtime.  The model is the runtime's mapping on the
    [plain] code units below (ASCII and the Cyrillic block U+0400..U+045F,
    which hold the two alphabets of the program) and on the sharp s: [ß]
    (U+00DF), which [toUpperCase] turns into the two units [SS], and its
    capital [ẞ] (U+1E9E), which [toUpperCase] keeps and [toLowerCase] turns
    into [ß].  On other code units the model leaves a string as it is, and
    the runtime may not: it maps further letters, some to more than one
    unit, and lower-cases [Σ] according to its neighbours.  Statements that
    depend on what case mapping does to the units of a string are therefore
    made for plain strings; the others hold whatever it does. *)
Definition plain (c : N) : bool := (c <? 128)%N || between 0x400 0x45F c.

Definition lowerUnit (c : N) : N :=
  if between 65 90 c then (c + 32)%N
  else if between 0x410 0x42F c then (c + 0x20)%N
  else if between 0x400 0x40F c then (c + 0x50)%N
  else if (c =? 0x1E9E)%N then 0xDF%N
  else c.

Definition upperUnit (c : N) : N :=
  if between 97 122 c then (c - 32)%N
  else if between 0x430 0x44F c then (c - 0x20)%N
  else if between 0x450 0x45F c then (c - 0x50)%N
  else c.

(** The upper-case form of one code unit: one unit, two for [ß]. *)
Definition upperUnits (c : N) : jsstring :=
  if (c =? 0xDF)%N then [83%N; 83%N] else [upperUnit c].

Definition toLowerCase (w : jsstring) : jsstring := lowerUnit <$> w.
Definition toUpperCase (w : jsstring) : jsstring := w ≫= upperUnits.

(** [w.trim()] *)
Fixpoint trimStart (w : jsstring) : jsstring :=
  match w with
  | c :: w' => if isSpace c then trimStart w' else w
  | [] => []
  end.

Definition trimEnd (w : jsstring) : jsstring := reverse (trimStart (reverse w)).
Definition trim (w : jsstring) : jsstring := trimEnd (trimStart w).

(** [normalizeWord]: drop white space, drop the punctuation class, fold case. *)
Definition normalizeWord (w : jsstring) : jsstring :=
  toLowerCase (filter (λ c, ¬ isPunct c) (filter (λ c, ¬ isSpace c) w)).

(** [/[a-zA-Zа-яА-ЯёЁ]/.test(c)] on a one-unit string. *)
Definition isLetter (c : N) : bool :=
  between 97 122 c || between 65 90 c
  || between 0x430 0x44F c || between 0x410 0x42F c
  || (c =? 0x451)%N || (c =? 0x401)%N.

(** ** Randomness *)

Abbreviation rng := (nat → nat).

(** [Math.floor(Math.random() * n)] *)
Definition randomBelow (n : nat) (g : rng) : nat * rng :=
  (g 0 `mod` n, λ k, g (S k)).

(** ** The bank generator *)

(** [[a[i], a[j]] = [a[j], a[i]]]; [shuffle] only calls it within bounds. *)
Definition swap {A} (i j : nat) (a : list A) : list A :=
  match a !! i, a !! j with
  | Some x, Some y => <[j := x]> (<[i := y]> a)
  | _, _ => a
  end.

(** The loop of [shuffle], for [i] down to 1. *)
Fixpoint shuffleFrom {A} (i : nat) (g : rng) (a : list A) : list A * rng :=
  match i with
  | 0 => (a, g)
  | S i' =>
      let '(j, g') := randomBelow (S i) g in
      shuffleFrom i' g' (swap i j a)
  end.

Definition shuffle {A} (g : rng) (arr : list A) : list A * rng :=
  shuffleFrom (length arr - 1) g arr.

(** The filler alphabet: 33 lower-case Cyrillic letters (with [ё] after
    [е]), then the 26 upper-case Latin letters. *)
Definition ALPHA : jsstring :=
  (N.of_nat <$> seq 0x430 6) ++ [0x451%N] ++ (N.of_nat <$> seq 0x436 26)
  ++ (N.of_nat <$> seq 65 26).

(** A bank tile is a string: one code unit, or [""] once it has been placed. *)
Definition ALPHA_at (k : nat) : jsstring :=
  match ALPHA !! k with Some c => [c] | None => [] end.

(** The [while (base.length < size)] loop, [n] iterations. *)
Fixpoint fillers (n : nat) (g : rng) (base : list jsstring)
  : list jsstring * rng :=
  match n with
  | 0 => (base, g)
  | S n' =>
      let '(r, g') := randomBelow (length ALPHA) g in
      fillers n' g' (base ++ [ALPHA_at r])
  end.

Definition split1 (w : jsstring) : list jsstring := (λ c, [c]) <$> w.

Definition bankSize (n : nat) : nat := 12 `max` (16 `min` (n + 6)).

Definition makeLetterBank (g : rng) (normTarget : jsstring)
  : list jsstring * rng :=
  let base := split1 (toUpperCase normTarget) in
  let size := bankSize (length base) in
  let '(base', g1) := fillers (size - length base) g base in
  let '(a, g2) := shuffle g1 base' in
  (take size a, g2).

(** ** The component's state *)

Module Item.
Record t := mk { word : jsstring; hint : option jsstring }.
End Item.

Module Slot.
Record t := mk { char : N; isLetter : bool; revealed : bool }.
End Slot.

Inductive Status := Idle | Correct | Wrong.

(** An entry of [picked]: the tile's text and its bank index. *)
Record tilePick := TilePick { ch : jsstring; i : nat }.

(** The [useState] cells of [App], and the [custom-words] key of the session
    store.  The store is modelled by the list it serialises
    ([JSON.parse (JSON.stringify l)] gives [l] back on a list of items). *)
Record state := State {
  items : list Item.t;
  index : nat;
  picked : list tilePick;
  shuffled : list jsstring;
  status : Status;
  revealed : nat;
  sessionStorage : option (list Item.t)
}.

Global Instance Status_eq_dec : EqDecision Status.
Proof. solve_decision. Defined.

Definition defaultSet : list Item.t :=
  [ Item.mk (str "DRAGON") (Some (str "mythical creature"));
    Item.mk (str "MOUSE") (Some (str "small animal"));
    Item.mk (str "FOREST") (Some (str "many trees"));
    Item.mk (str "FRIEND") (Some (str "buddy"));
    Item.mk (str "SING") (Some (str "make music with your voice")) ].

Definition loadItems (store : option (list Item.t)) : list Item.t :=
  match store with
  | Some l => l
  | None => defaultSet
  end.

(** *** Derived values of a render *)

Definition current (s : state) : option Item.t := items s !! index s.

Definition target (s : state) : jsstring :=
  trim (match current s with Some it => Item.word it | None => [] end).

Definition normalizedTarget (s : state) : jsstring := normalizeWord (target s).

Definition displayWordOf (tgt : jsstring) (rev : nat) : list Slot.t :=
  imap (λ k c, Slot.mk c (isLetter c) (bool_decide (k < rev))) tgt.

Definition displayWord (s : state) : list Slot.t :=
  displayWordOf (target s) (revealed s).

(** [displayWord.map((x, idx) => ({...x, idx})).filter((x) => x.isLetter)] *)
Definition letterSlots (dw : list Slot.t) : list (nat * Slot.t) :=
  filter (λ x, Slot.isLetter x.2) (imap (λ idx x, (idx, x)) dw).

(** *** Helpers of the engine *)

Fixpoint rebuildFrom (letters : list jsstring) (pos : nat) (dw : list Slot.t)
  : jsstring :=
  match dw with
  | [] => []
  | x :: dw' =>
      if negb (Slot.isLetter x) then Slot.char x :: rebuildFrom letters pos dw'
      else if Slot.revealed x then Slot.char x :: rebuildFrom letters pos dw'
      else default [] (letters !! pos) ++ rebuildFrom letters (S pos) dw'
  end.

Definition rebuildWithPunctuation (pk : list tilePick) (dw : list Slot.t)
  (revealedCount : nat) : jsstring :=
  rebuildFrom (ch <$> pk) 0 dw.

(** [findIndex], as an integer: [-1] when nothing matches. *)
Fixpoint findIndex {A} (p : A → bool) (l : list A) : Z :=
  match l with
  | [] => (-1)%Z
  | x :: l' =>
      if p x then 0%Z
      else let r := findIndex p l' in if (r <? 0)%Z then r else (r + 1)%Z
  end.

Definition renderPickedChar (dw : list Slot.t) (pk : list tilePick)
  (revealedCount idx : nat) : jsstring :=
  let logicalIndex := findIndex (λ x, bool_decide (x.1 = idx)) (letterSlots dw) in
  let k := (logicalIndex - Z.of_nat revealedCount)%Z in
  if (k <? 0)%Z then [] else default [] (ch <$> pk !! Z.to_nat k).

(** What the slot at [idx] shows (the "Target slots" of the view). *)
Definition slotText (s : state) (idx : nat) : jsstring :=
  match displayWord s !! idx with
  | None => []
  | Some slot =>
      if Slot.isLetter slot then
        if bool_decide (idx < revealed s)
        then default [] ((λ c, [c]) <$> target s !! idx)
        else renderPickedChar (displayWord s) (picked s) (revealed s) idx
      else [Slot.char slot]
  end.

(** *** Event handlers *)

Definition onTileClick (c : jsstring) (k : nat) (s : state) : state :=
  if bool_decide (status s ≠ Idle) then s
  else
    let slots := letterSlots (displayWord s) in
    let filledCount := length (picked s) + revealed s in
    if bool_decide (length slots ≤ filledCount) then s
    else
      State (items s) (index s)
        (picked s ++ [TilePick c k])
        (imap (λ bi c', if bool_decide (bi = k) then [] else c') (shuffled s))
        (status s) (revealed s) (sessionStorage s).

(** A bank button: [disabled={!ch}], [onClick={() => onTileClick(ch, i)}].
    There is one button per bank position, and a disabled one does not
    fire. *)
Definition pick (k : nat) (s : state) : state :=
  match shuffled s !! k with
  | None => s
  | Some c => if bool_decide (c = []) then s else onTileClick c k s
  end.

Definition removeLast (s : state) : state :=
  match last (picked s) with
  | None => s
  | Some l =>
      if bool_decide (status s ≠ Idle) then s
      else
        State (items s) (index s)
          (take (length (picked s) - 1) (picked s))
          (imap (λ bi c, if bool_decide (bi = i l) then ch l else c) (shuffled s))
          (status s) (revealed s) (sessionStorage s)
  end.

Definition check (s : state) : state :=
  match current s with
  | None => s
  | Some _ =>
      let userFull := rebuildWithPunctuation (picked s) (displayWord s) (revealed s) in
      let normalizedUser := normalizeWord userFull in
      let ok := bool_decide (normalizedUser = normalizedTarget s) in
      State (items s) (index s) (picked s) (shuffled s)
        (if ok then Correct else Wrong) (revealed s) (sessionStorage s)
  end.

Definition hint (s : state) : state :=
  let slots := letterSlots (displayWord s) in
  if bool_decide (length slots ≤ revealed s) then s
  else
    State (items s) (index s) (picked s) (shuffled s) (status s)
      (revealed s + 1) (sessionStorage s).

Definition shuffleBank (g : rng) (s : state) : state :=
  State (items s) (index s) (picked s) (shuffle g (shuffled s)).1
    (status s) (revealed s) (sessionStorage s).

(** [b.filter(Boolean)] keeps the non-empty tiles. *)
Definition reset (g : rng) (s : state) : state :=
  State (items s) (index s) [] (shuffle g (filter (λ c, c ≠ []) (shuffled s))).1
    Idle 0 (sessionStorage s).

(** The effect on [[index, normalizedTarget]]: a fresh bank, shuffled once
    more, and a clean attempt; nothing when there is no current item. *)
Definition initPuzzle (g : rng) (s : state) : state :=
  match current s with
  | None => s
  | Some _ =>
      let '(bank, g1) := makeLetterBank g (normalizedTarget s) in
      State (items s) (index s) [] (shuffle g1 bank).1 Idle 0 (sessionStorage s)
  end.

(** A render after a handler that went from [old] to [new]: the effect runs
    when one of its dependencies changed. *)
Definition rerender (g : rng) (old new : state) : state :=
  if bool_decide (index old = index new ∧ normalizedTarget old = normalizedTarget new)
  then new else initPuzzle g new.

(** The first render: the effect runs on mount. *)
Definition mount (g : rng) (store : option (list Item.t)) : state :=
  initPuzzle g (State (loadItems store) 0 [] [] Idle 0 store).

Definition next (g : rng) (s : state) : state :=
  rerender g s
    (State (items s)
       (if bool_decide (index s + 1 < length (items s)) then index s + 1 else 0)
       (picked s) (shuffled s) (status s) (revealed s) (sessionStorage s)).

Definition clearSet (g : rng) (s : state) : state :=
  rerender g s
    (State defaultSet 0 (picked s) (shuffled s) (status s) (revealed s) None).

(** ** Ingestion *)

(** [txt.split(/\r?\n/)]: a line feed, with the carriage return before it
    when there is one, ends a line. *)
Fixpoint splitLinesFrom (cur : jsstring) (w : jsstring) : list jsstring :=
  match w with
  | [] => [cur]
  | c :: w' =>
      if (c =? 10)%N then cur :: splitLinesFrom [] w'
      else
        match w' with
        | d :: w'' =>
            if (c =? 13)%N && (d =? 10)%N then cur :: splitLinesFrom [] w''
            else splitLinesFrom (cur ++ [c]) w'
        | [] => splitLinesFrom (cur ++ [c]) w'
        end
  end.

Definition splitLines (txt : jsstring) : list jsstring := splitLinesFrom [] txt.

(** [line.split(d)] for one-unit separators: every [c] with [sep c] cuts. *)
Fixpoint splitOnFrom (sep : N → bool) (cur : jsstring) (w : jsstring)
  : list jsstring :=
  match w with
  | [] => [cur]
  | c :: w' =>
      if sep c then cur :: splitOnFrom sep [] w'
      else splitOnFrom sep (cur ++ [c]) w'
  end.

Definition splitOn (sep : N → bool) (w : jsstring) : list jsstring :=
  splitOnFrom sep [] w.

Definition nonEmpty (w : jsstring) : Prop := w ≠ [].

(** What [parseTXT] makes of one line: [const [w, h] = line.split("|")]. *)
Definition parseLine (line : jsstring) : Item.t :=
  let parts := splitOn (N.eqb 124) line in
  Item.mk (trim (default [] (parts !! 0)))
          (match parts !! 1 with
           | Some h => if bool_decide (h = []) then None else Some (trim h)
           | None => None
           end).

Definition parseTXT (txt : jsstring) : list Item.t :=
  filter (λ x, 0 < length (Item.word x))
    (parseLine <$> filter nonEmpty (trim <$> splitLines txt)).

Definition isDelimiter (c : N) : bool := (c =? 44)%N || (c =? 59)%N || (c =? 9)%N.

(** The [for] loop of [parseCSV] over the rows from [start] on. *)
Definition csvRow (row : list jsstring) : list Item.t :=
  match row !! 0 with
  | Some w => if bool_decide (w = []) then [] else [Item.mk w (row !! 1)]
  | None => []
  end.

Definition parseCSV (txt : jsstring) : list Item.t :=
  let lines := filter nonEmpty (splitLines txt) in
  let rows := (λ l, trim <$> splitOn isDelimiter l) <$> lines in
  let maybeHeader :=
    bool_decide (toLowerCase <$> (rows !! 0 ≫= (.!! 0)) = Some (str "word")) in
  let start := if maybeHeader then 1 else 0 in
  drop start rows ≫= csvRow.

(** A value built by [JSON.parse].  A number is kept as the two things this
    program can observe of it: whether it is truthy and its [String()]
    text. *)
#[warnings="-register-all"]
Inductive json :=
  | JNull
  | JBool (b : bool)
  | JNumber (truthy : bool) (text : jsstring)
  | JString (w : jsstring)
  | JArray (elems : list json)
  | JObject (fields : list (jsstring * json)).

Definition truthy (v : json) : bool :=
  match v with
  | JNull => false
  | JBool b => b
  | JNumber t _ => t
  | JString w => negb (bool_decide (w = []))
  | JArray _ | JObject _ => true
  end.

(** [String(v)] *)
Fixpoint String_ (v : json) : jsstring :=
  match v with
  | JNull => str "null"
  | JBool b => if b then str "true" else str "false"
  | JNumber _ t => t
  | JString w => w
  | JArray l =>
      (fix join (l : list json) : jsstring :=
         match l with
         | [] => []
         | x :: l' =>
             (match x with JNull => [] | _ => String_ x end)
             ++ match l' with [] => [] | _ => 44%N :: join l' end
         end) l
  | JObject _ => str "[object Object]"
  end.

Fixpoint ownProperty (name : jsstring) (fields : list (jsstring * json))
  : option json :=
  match fields with
  | [] => None
  | (k, v) :: fields' =>
      if bool_decide (k = name) then Some v else ownProperty name fields'
  end.

(** [x.word], [x.hint]: [None] when reading a property throws (on [null]),
    [Some None] for [undefined]. *)
Definition getProp (x : json) (name : jsstring) : option (option json) :=
  match x with
  | JNull => None
  | JObject fields => Some (ownProperty name fields)
  | _ => Some None
  end.

Definition jsonItem (x : json) : option Item.t :=
  w ← getProp x (str "word");
  h ← getProp x (str "hint");
  Some (Item.mk
          (trim (match w with
                 | Some v => if truthy v then String_ v else []
                 | None => []
                 end))
          (match h with
           | Some v => if truthy v then Some (String_ v) else None
           | None => None
           end)).

(** An upload, as the handler meets it: the lower-cased extension of the
    file, its text, what [JSON.parse] returns on that text ([None] when it
    throws), and whether [sessionStorage.setItem] throws on the list it
    yields (a full or disabled store). *)
Record file := File {
  ext : jsstring;
  text : jsstring;
  parsedJSON : option json;
  storeThrows : bool
}.

(** The body of the [try] up to the emptiness test; [None] is an exception
    of the runtime. *)
Definition parseFile (f : file) : option (list Item.t) :=
  if bool_decide (ext f = str "json") then
    j ← parsedJSON f;
    match j with
    | JArray l =>
        parsed ← mapM jsonItem l;
        Some (filter (λ x, 0 < length (Item.word x)) parsed)
    | _ => Some []
    end
  else if bool_decide (ext f = str "csv") then Some (parseCSV (text f))
  else Some (parseTXT (text f)).

Fixpoint dedupeFrom (seen : gset jsstring) (arr : list Item.t) : list Item.t :=
  match arr with
  | [] => []
  | it :: arr' =>
      let key := normalizeWord (Item.word it) in
      if bool_decide (key = []) then dedupeFrom seen arr'
      else if bool_decide (key ∈ seen) then dedupeFrom seen arr'
      else Item.mk (toUpperCase (Item.word it)) (Item.hint it)
             :: dedupeFrom ({[key]} ∪ seen) arr'
  end.

Definition dedupe (arr : list Item.t) : list Item.t := dedupeFrom ∅ arr.

(** What the [catch] reports through [alert]. *)
Inductive uploadError :=
  | RuntimeError   (* an exception of [JSON.parse], of a property read or of
                      [sessionStorage.setItem] *)
  | NoWords.       (* [new Error("Файл не содержит слов")] *)

(** The [onload] handler.  [setItems(unique)] comes before
    [sessionStorage.setItem], and [setIndex(0)] after it: when the store
    throws, the new list is installed all the same, the index and the store
    stay, and the error is reported. *)
Definition onUpload (g : rng) (f : file) (s : state)
  : option uploadError * state :=
  match parseFile f with
  | None => (Some RuntimeError, s)
  | Some parsed =>
      if bool_decide (length parsed = 0) then (Some NoWords, s)
      else
        let unique := take 20 (dedupe parsed) in
        if storeThrows f then
          (Some RuntimeError,
           rerender g s
             (State unique (index s) (picked s) (shuffled s) (status s)
                (revealed s) (sessionStorage s)))
        else
          (None,
           rerender g s
             (State unique 0 (picked s) (shuffled s) (status s) (revealed s)
                (Some unique)))
  end.

(** The verdict of [check] when there is a current item. *)
Definition verdict (tgt : jsstring) (pk : list tilePick) (rev : nat) : Status :=
  if bool_decide (normalizeWord (rebuildWithPunctuation pk (displayWordOf tgt rev) rev)
                  = normalizeWord tgt)
  then Correct else Wrong.

(** ** Runs of the engine *)

(** The four operations of an attempt. *)
Inductive op := Pick (k : nat) | RemoveLast | Hint | Check.

Global Instance op_eq_dec : EqDecision op.
Proof. solve_decision. Defined.

Definition step (o : op) (s : state) : state :=
  match o with
  | Pick k => pick k s
  | RemoveLast => removeLast s
  | Hint => hint s
  | Check => check s
  end.

Definition run (ops : list op) (s : state) : state :=
  foldl (λ s o, step o s) s ops.

(** Every handler of the component; the ones that draw random numbers or
    read a file carry what they consume. *)
Inductive event :=
  | Op (o : op)
  | ShuffleBank (g : rng)
  | Reset (g : rng)
  | Next (g : rng)
  | Upload (g : rng) (f : file)
  | ClearSet (g : rng).

Definition handle (e : event) (s : state) : state :=
  match e with
  | Op o => step o s
  | ShuffleBank g => shuffleBank g s
  | Reset g => reset g s
  | Next g => next g s
  | Upload g f => (onUpload g f s).2
  | ClearSet g => clearSet g s
  end.

Definition play (es : list event) (s : state) : state :=
  foldl (λ s e, handle e s) s es.

(** The states the component can be in. *)
Definition reachable (s : state) : Prop :=
  ∃ g store es, s = play es (mount g store).

Definition letterSlotCount (s : state) : nat :=
  length (letterSlots (displayWord s)).

(** A pick that the engine accepts: the tile is there and not yet placed,
    and a letter slot is free. *)
Definition validPick (k : nat) (s : state) : bool :=
  match shuffled s !! k with
  | Some c => bool_decide (c ≠ [])
  | None => false
  end
  && bool_decide (length (picked s) + revealed s < letterSlotCount s).

Fixpoint validPicks (ks : list nat) (s : state) : bool :=
  match ks with
  | [] => true
  | k :: ks' => validPick k s && validPicks ks' (pick k s)
  end.

(** The bank once the tiles at [ks] have been placed. *)
Definition clearTiles (ks : list nat) (bank : list jsstring) : list jsstring :=
  foldl (λ b k, <[k := []]> b) bank ks.

(** The letters in play: the tiles still in the bank and the picked ones. *)
Definition lettersInPlay (s : state) : list jsstring :=
  filter (λ c, c ≠ []) (shuffled s) ++ (ch <$> picked s).

Definition indicesOk (s : state) : Prop :=
  NoDup (i <$> picked s) ∧ ∀ p, p ∈ picked s → shuffled s !! i p = Some [].

(** The letters of [bank] are all in play, each picked tile has left an
    empty position of its own behind, and no picked tile is blank. *)
Definition conserved (bank : list jsstring) (s : state) : Prop :=
  lettersInPlay s ≡ₚ bank ∧ indicesOk s ∧ Forall (λ p, ch p ≠ []) (picked s).

(** An attempt on a bank: from the initialisation of a puzzle, through the
    four operations; [reset] starts anew on the tiles that are left, and the
    bank may be reshuffled while nothing is picked. *)
Inductive attempt : list jsstring → state → Prop :=
  | attempt_init g s :
      is_Some (current s) →
      attempt (shuffled (initPuzzle g s)) (initPuzzle g s)
  | attempt_step bank o s :
      attempt bank s → attempt bank (step o s)
  | attempt_shuffle bank g s :
      attempt bank s → picked s = [] → attempt bank (shuffleBank g s)
  | attempt_reset bank g s :
      attempt bank s → attempt (shuffled (reset g s)) (reset g s).

(** The letter positions that count as revealed, in the slots shown and in
    the candidate that [check] rebuilds: letter slots with [revealed] set. *)
Definition revealedPositions (dw : list Slot.t) : list nat :=
  fst <$> filter (λ x, Slot.revealed x.2) (letterSlots dw).

(** The first [k] letter slots of a target, from left to right. *)
Definition firstLetterSlots (k : nat) (tgt : jsstring) : list nat :=
  take k (fst <$> letterSlots (displayWordOf tgt 0)).

(** ** A worked attempt on the first built-in word

    With these draws the bank of DRAGON is
    [й ж A N G б д D п R O м]. *)
Definition draws : rng := λ n, 3 * n + 1.

Definition dragonStart : state := mount draws None.

Definition spellDRAGO : list op := [Pick 7; Pick 9; Pick 2; Pick 4; Pick 10].

(** ** A target with a hyphen *)
Definition hyphenStart : state := mount draws (Some [Item.mk (str "A-B") None]).

(** A text file whose only line is three dots. *)
Definition dotsFile : file := File (str "txt") (str "...") None false.

(** A CSV file with the header row and nothing else. *)
Definition headerOnlyCSV : file :=
  File (str "csv") (str "word,hint") None false.

(** ** Entries of a text file *)

(** The deduplication key of an item, and the item as [dedupe] keeps it. *)
Definition key (it : Item.t) : jsstring := normalizeWord (Item.word it).

Definition display (it : Item.t) : Item.t :=
  Item.mk (toUpperCase (Item.word it)) (Item.hint it).

(** The items on whose words the model of case mapping is the runtime's. *)
Definition plainWord (it : Item.t) : Prop :=
  Forall (λ c, plain c) (Item.word it).

Definition isLineBreak (c : N) : bool := (c =? 10)%N || (c =? 13)%N.

(** A word or a hint as a line of a text file can carry it: not empty, no
    white space at either end, no line break and no [|] inside. *)
Definition startsClean (w : jsstring) : bool :=
  match w with [] => false | c :: _ => negb (isSpace c) end.

Definition cleanField (w : jsstring) : bool :=
  startsClean w && startsClean (reverse w)
  && forallb (λ c, negb (isLineBreak c) && negb (c =? 124)%N) w.

(** A valid entry: a clean word with a non-empty key, and a clean hint when
    there is one. *)
Definition validEntry (it : Item.t) : bool :=
  cleanField (Item.word it)
  && negb (bool_decide (key it = []))
  && match Item.hint it with None => true | Some h => cleanField h end.

(** The line of an entry: [WORD] or [WORD | HINT]. *)
Definition entryLine (it : Item.t) : jsstring :=
  match Item.hint it with
  | None => Item.word it
  | Some h => Item.word it ++ str " | " ++ h
  end.

Fixpoint joinLines (lines : list jsstring) : jsstring :=
  match lines with
  | [] => []
  | [l] => l
  | l :: rest => l ++ 10%N :: joinLines rest
  end.

Definition textOf (entries : list Item.t) : jsstring :=
  joinLines (entryLine <$> entries).


(** Twenty-five entries with different keys, two of them with a hint. *)
Definition sampleEntries : list Item.t :=
  [ Item.mk (str "ant") (Some (str "small and busy"));
    Item.mk (str "bee") (Some (str "makes honey")) ]
  ++ ((λ w, Item.mk (str w) None) <$>
      [ "cat"; "dog"; "eel"; "fox"; "gnu"; "hen"; "ibis"; "jay"; "koi";
        "lynx"; "mole"; "newt"; "owl"; "pig"; "quail"; "rat"; "seal"; "toad";
        "urchin"; "vole"; "wasp"; "yak"; "zebra" ]%string).

(** The code units that case mapping touches or produces. *)
Definition cased (c : N) : Prop :=
  (65 ≤ c ≤ 90 ∨ 97 ≤ c ≤ 122 ∨ 0x400 ≤ c ≤ 0x45F ∨ c = 0xDF ∨ c = 0x1E9E)%N.

(** The letters of a target, in order: its letter slots. *)
Definition lettersOf (tgt : jsstring) : jsstring := filter (λ c, isLetter c) tgt.

(** The tile that the bank holds for a letter of the target. *)
Definition tileOf (c : N) : jsstring := [upperUnit (lowerUnit c)].

(** The events on which the session store takes what it is given. *)
Definition storeAccepts (e : event) : Prop :=
  match e with
  | Upload _ f => storeThrows f = false
  | _ => True
  end.

(** The states that the component reaches while the session store takes
    every upload. *)
Definition reachableStoring (s : state) : Prop :=
  ∃ g store es, Forall storeAccepts es ∧ s = play es (mount g store).

(** A German word in capitals, with the capital sharp s, and a word list
    whose upload the store refuses. *)
Definition STRASSE : jsstring := str "STRA" ++ [0x1E9E%N] ++ str "E".

Definition refusedFile : file := File (str "txt") (str "panda") None true.

(** The events that stay on the current puzzle. *)
Definition onPuzzle (e : event) : Prop :=
  match e with
  | Op _ | ShuffleBank _ | Reset _ => True
  | _ => False
  end.

(** ** Entries of a JSON and of a CSV file *)

(** The object that [JSON.stringify] writes for an item: the [hint] property
    is left out when it is [undefined]. *)
Definition jsonOfItem (it : Item.t) : json :=
  JObject ((str "word", JString (Item.word it))
           :: match Item.hint it with
              | Some h => [(str "hint", JString h)]
              | None => []
              end).

Definition jsonOf (l : list Item.t) : json := JArray (jsonOfItem <$> l).

(** An item that a JSON file gives back as it is: its word is not changed
    by [trim] and is not empty, and its hint, when there is one, is not
    empty. *)
Definition validObject (it : Item.t) : bool :=
  startsClean (Item.word it) && startsClean (reverse (Item.word it))
  && match Item.hint it with
     | Some h => negb (bool_decide (h = []))
     | None => true
     end.

(** A cell of a CSV file: not empty, no white space at either end, no line
    break and no delimiter inside. *)
Definition cleanCell (w : jsstring) : bool :=
  startsClean w && startsClean (reverse w)
  && forallb (λ c, negb (isLineBreak c) && negb (isDelimiter c)) w.

Definition validRow (it : Item.t) : bool :=
  cleanCell (Item.word it)
  && match Item.hint it with None => true | Some h => cleanCell h end.

(** The row of an entry: [WORD] or [WORD,HINT]. *)
Definition csvLine (it : Item.t) : jsstring :=
  match Item.hint it with
  | None => Item.word it
  | Some h => Item.word it ++ 44%N :: h
  end.

(** The text file of the sample entries, and a state that has seen an
    upload of it after a pick, then a move to the next word. *)
Definition sampleFile : file :=
  File (str "txt") (textOf sampleEntries) None false.

Definition sampleEvents : list event :=
  [Op (Pick 7); Upload draws sampleFile; Next draws; Op Hint].

Definition sampleState : state := play sampleEvents dragonStart.

(** ** A target with two hyphens

    With the draws above the bank of MOTHER-IN-LAW is
    [T I N м ж O E д M б A H W й R L]; the picks below spell the eleven
    letters in order. *)
Definition motherStart : state :=
  mount draws (Some [Item.mk (str "MOTHER-IN-LAW") None]).

Definition spellMOTHERINLAW : list op :=
  Pick <$> [8; 5; 0; 11; 6; 14; 1; 2; 15; 10; 12].

(** A tile that stands for a letter, in either case. *)
Definition sameLetter (t : jsstring) (c : N) : Prop :=
  normalizeWord t = normalizeWord [c].

(** * Properties *)

(** ** Strings and the normalizer *)

Lemma length_toLowerCase w : length (toLowerCase w) = length w.
Proof. apply length_fmap. Qed.

Lemma length_split1 w : length (split1 w) = length w.
Proof. apply length_fmap. Qed.

(** ** The bank generator *)

Section shuffle.
Context {A : Type}.
Implicit Types a : list A.

Lemma swap_Permutation k j a : swap k j a ≡ₚ a.
Proof.
  unfold swap.
  destruct (a !! k) as [x|] eqn:Hk; [|done].
  destruct (a !! j) as [y|] eqn:Hj; [|done].
  by apply Permutation_insert_swap.
Qed.

Lemma shuffleFrom_Permutation k g a : (shuffleFrom k g a).1 ≡ₚ a.
Proof.
  revert g a. induction k as [|k IH]; intros g a; simpl; [done|].
  rewrite IH. apply swap_Permutation.
Qed.

Lemma shuffle_Permutation g a : (shuffle g a).1 ≡ₚ a.
Proof. apply shuffleFrom_Permutation. Qed.

Lemma length_shuffle g a : length (shuffle g a).1 = length a.
Proof. by rewrite shuffle_Permutation. Qed.
End shuffle.

Lemma fillers_app n g base :
  ∃ extra, (fillers n g base).1 = base ++ extra ∧ length extra = n.
Proof.
  revert g base. induction n as [|n IH]; intros g base; simpl.
  - exists []. by rewrite app_nil_r.
  - destruct (IH (randomBelow (length ALPHA) g).2
                (base ++ [ALPHA_at (randomBelow (length ALPHA) g).1]))
      as (extra & Heq & Hlen).
    exists (ALPHA_at (randomBelow (length ALPHA) g).1 :: extra).
    split; [|simpl; lia].
    etrans; [exact Heq|]. by rewrite <-app_assoc.
Qed.

Lemma bankSize_bounds n : 12 ≤ bankSize n ≤ 16.
Proof. unfold bankSize. lia. Qed.

(** The bank of a target whose upper-cased form is [u].  Nothing here
    depends on what upper-casing does to the target: only [u] counts. *)
Lemma makeLetterBank_unfold g nt :
  let u := toUpperCase nt in
  (makeLetterBank g nt).1 =
  take (bankSize (length u))
    (shuffle (fillers (bankSize (length u) - length u) g (split1 u)).2
       (fillers (bankSize (length u) - length u) g (split1 u)).1).1.
Proof.
  intros u. unfold makeLetterBank. fold u. rewrite length_split1.
  destruct (fillers _ _ _) as [base' g1]. simpl.
  by destruct (shuffle g1 base') as [a g2].
Qed.

Lemma length_makeLetterBank g nt :
  length (makeLetterBank g nt).1 = bankSize (length (toUpperCase nt)).
Proof.
  rewrite makeLetterBank_unfold. cbv zeta. rewrite length_take, length_shuffle.
  destruct (fillers_app (bankSize (length (toUpperCase nt)) - length (toUpperCase nt))
              g (split1 (toUpperCase nt))) as (extra & -> & Hlen).
  rewrite length_app, length_split1, Hlen. lia.
Qed.

Lemma makeLetterBank_seed g nt :
  length (toUpperCase nt) ≤ 16 →
  split1 (toUpperCase nt) ⊆+ (makeLetterBank g nt).1.
Proof.
  intros Hle. rewrite makeLetterBank_unfold. cbv zeta.
  destruct (fillers_app (bankSize (length (toUpperCase nt)) - length (toUpperCase nt))
              g (split1 (toUpperCase nt))) as (extra & Heq & Hlen).
  rewrite take_ge.
  - rewrite shuffle_Permutation, Heq. by apply submseteq_inserts_r.
  - rewrite length_shuffle, Heq, length_app, length_split1, Hlen.
    unfold bankSize. lia.
Qed.

(** C1 (as amended).  For every target word and every outcome of the random
    draws, the bank [makeLetterBank(normalize(target))] has
    [clamp(len(U) + 6, 12, 16)] tiles, a number between 12 and 16, where [U]
    is [normalize(target)] upper-cased; and when [U] has at most 16 code
    units the bank contains, as a sub-multiset, every code unit of [U]. *)
Theorem bank_conservation (g : rng) (target : jsstring) :
  let seed := toUpperCase (normalizeWord target) in
  let bank := (makeLetterBank g (normalizeWord target)).1 in
  length bank = bankSize (length seed)
  ∧ 12 ≤ length bank ≤ 16
  ∧ (length seed ≤ 16 → split1 seed ⊆+ bank).
Proof.
  intros seed bank. subst seed bank.
  rewrite length_makeLetterBank.
  split; [done|]. split; [apply bankSize_bounds|].
  apply makeLetterBank_seed.
Qed.

Lemma bank_conservation_dragon :
  length (toUpperCase (normalizeWord (str "DRAGON"))) ≤ 16
  ∧ split1 (toUpperCase (normalizeWord (str "DRAGON")))
    ⊆+ (makeLetterBank (λ n, n) (normalizeWord (str "DRAGON"))).1.
Proof.
  assert (Hlen : length (toUpperCase (normalizeWord (str "DRAGON"))) ≤ 16)
    by (vm_compute; lia).
  split; [exact Hlen|].
  exact (proj2 (proj2 (bank_conservation (λ n, n) (str "DRAGON"))) Hlen).
Defined.

(** C1 fails as stated: the size of the bank follows the upper-cased seed,
    not the normalized target.  The word [STRAẞE] normalizes to the six
    units of [straße], whose upper-cased form [STRASSE] has seven: the bank
    has 13 tiles, not [clamp(6 + 6, 12, 16) = 12], whatever the random
    draws. *)
Lemma bank_conservation_sharp_s :
  let target := STRASSE in
  ¬ ∃ g : rng,
      length (makeLetterBank g (normalizeWord target)).1
      = bankSize (length (normalizeWord target)).
Proof.
  intros target [g H]. rewrite length_makeLetterBank in H.
  vm_compute in H. discriminate.
Qed.

(** A seed longer than the bank does not fit in it: a target of 17 letters
    has a bank of 16 tiles, which cannot hold its 17 letters, whatever the
    random draws. *)
Lemma long_target_is_cut :
  let target := str "MISUNDERSTANDINGS" in
  ¬ ∃ g : rng,
      split1 (toUpperCase (normalizeWord target))
      ⊆+ (makeLetterBank g (normalizeWord target)).1.
Proof.
  intros target [g H]. apply submseteq_length in H.
  rewrite length_makeLetterBank in H. vm_compute in H. lia.
Qed.

(** ** The engine: how each handler acts *)

Lemma imap_update {A} (k : nat) (x : A) (l : list A) :
  imap (λ bi c, if bool_decide (bi = k) then x else c) l = <[k := x]> l.
Proof.
  apply list_eq. intros j. rewrite list_lookup_imap.
  destruct (decide (j = k)) as [->|Hne].
  - destruct (l !! k) as [y|] eqn:E; simpl.
    + rewrite bool_decide_true by done. symmetry.
      apply list_lookup_insert_eq. by eapply lookup_lt_Some.
    + symmetry. apply lookup_ge_None. rewrite length_insert.
      by apply lookup_ge_None.
  - rewrite list_lookup_insert_ne by done.
    destruct (l !! j); simpl; [|done]. by rewrite bool_decide_false.
Qed.

Lemma pick_locked k s : status s ≠ Idle → pick k s = s.
Proof.
  intros H. unfold pick, onTileClick.
  destruct (shuffled s !! k) as [c|]; [|done].
  rewrite (bool_decide_true (status s ≠ Idle)) by done.
  by destruct (bool_decide (c = [])).
Qed.

Lemma pick_empty_tile k s : shuffled s !! k = Some [] → pick k s = s.
Proof. intros H. unfold pick. rewrite H. by rewrite bool_decide_true. Qed.

Lemma pick_full k s :
  letterSlotCount s ≤ length (picked s) + revealed s → pick k s = s.
Proof.
  intros H. unfold pick, onTileClick.
  destruct (shuffled s !! k) as [c|]; [|done].
  rewrite (bool_decide_true (length _ ≤ _)) by done.
  by repeat case_bool_decide.
Qed.

Lemma removeLast_locked s : status s ≠ Idle → removeLast s = s.
Proof.
  intros H. unfold removeLast. destruct (last (picked s)); [|done].
  by rewrite bool_decide_true.
Qed.

Lemma removeLast_empty s : picked s = [] → removeLast s = s.
Proof. intros H. unfold removeLast. by rewrite H. Qed.

Lemma hint_fields s :
  status (hint s) = status s ∧ picked (hint s) = picked s
  ∧ shuffled (hint s) = shuffled s ∧ items (hint s) = items s
  ∧ index (hint s) = index s.
Proof. unfold hint. by case_bool_decide. Qed.


Lemma check_no_current s : current s = None → check s = s.
Proof. intros H. unfold check. by rewrite H. Qed.

Lemma check_current s it :
  current s = Some it →
  check s = State (items s) (index s) (picked s) (shuffled s)
              (verdict (target s) (picked s) (revealed s)) (revealed s)
              (sessionStorage s).
Proof. intros H. unfold check. by rewrite H. Qed.

Lemma verdict_not_Idle tgt pk rev : verdict tgt pk rev ≠ Idle.
Proof. unfold verdict. by case_bool_decide. Qed.

Lemma check_status s : status s ≠ Idle → status (check s) ≠ Idle.
Proof.
  intros H. destruct (current s) as [it|] eqn:E.
  - rewrite (check_current s it E). apply verdict_not_Idle.
  - by rewrite check_no_current.
Qed.

Lemma check_check s : check (check s) = check s.
Proof.
  destruct (current s) as [it|] eqn:E.
  - rewrite (check_current s it E).
    by rewrite (check_current (State _ _ _ _ _ _ _) it E).
  - by rewrite !(check_no_current s E).
Qed.

(** C7.  [pick(tileIndex)] changes nothing when the bank position is already
    empty, or when the filled letter slots ([picked.length + revealed]) are
    as many as the letter slots, or when the engine is not in [Idle].  The
    model is total: nothing throws. *)
Theorem pick_noop (k : nat) (s : state) :
  shuffled s !! k = Some []
  ∨ length (picked s) + revealed s = letterSlotCount s
  ∨ status s ≠ Idle →
  pick k s = s.
Proof.
  intros [H|[H|H]].
  - by apply pick_empty_tile.
  - apply pick_full. lia.
  - by apply pick_locked.
Qed.

Lemma pick_noop_placed_tile :
  let s := pick 7 dragonStart in
  shuffled s !! 7 = Some [] ∧ pick 7 s = s.
Proof.
  intros s.
  assert (H : shuffled s !! 7 = Some []) by (vm_compute; reflexivity).
  split; [exact H|].
  exact (pick_noop 7 s (or_introl H)).
Defined.

(** ** Locked states *)

Lemma step_locked o s :
  status s ≠ Idle → o ≠ Check →
  status (step o s) = status s ∧ picked (step o s) = picked s
  ∧ shuffled (step o s) = shuffled s.
Proof.
  intros H Ho. destruct o as [k| | |]; simpl.
  - by rewrite pick_locked.
  - by rewrite removeLast_locked.
  - destruct (hint_fields s) as (? & ? & ? & _). done.
  - done.
Qed.

Lemma step_status o s : status s ≠ Idle → status (step o s) ≠ Idle.
Proof.
  intros H. destruct o as [k| | |]; simpl.
  - by rewrite pick_locked.
  - by rewrite removeLast_locked.
  - by destruct (hint_fields s) as (-> & _).
  - by apply check_status.
Qed.

Lemma run_cons o ops s : run (o :: ops) s = run ops (step o s).
Proof. done. Qed.

Lemma run_snoc ops o s : run (ops ++ [o]) s = step o (run ops s).
Proof. unfold run. by rewrite foldl_app. Qed.

Lemma run_status ops s : status s ≠ Idle → status (run ops s) ≠ Idle.
Proof.
  revert s. induction ops as [|o ops IH]; intros s H; [done|].
  rewrite run_cons. by apply IH, step_status.
Qed.

Lemma run_locked ops s :
  status s ≠ Idle → Check ∉ ops →
  status (run ops s) = status s ∧ picked (run ops s) = picked s
  ∧ shuffled (run ops s) = shuffled s.
Proof.
  revert s. induction ops as [|o ops IH]; intros s H Hops; [done|].
  apply not_elem_of_cons in Hops as [Ho Hops].
  destruct (step_locked o s H) as (E1 & E2 & E3); [done|].
  rewrite run_cons.
  destruct (IH (step o s)) as (F1 & F2 & F3); [by rewrite E1|done|].
  by rewrite F1, F2, F3.
Qed.

Lemma run_settled ops s :
  status s ≠ Idle → check s = s → Hint ∉ ops → run ops s = s.
Proof.
  intros H Hc. induction ops as [|o ops IH]; intros Hops; [done|].
  apply not_elem_of_cons in Hops as [Ho Hops].
  rewrite run_cons.
  assert (step o s = s) as ->; [|by apply IH].
  destruct o as [k| | |]; simpl; [by apply pick_locked|by apply removeLast_locked|done|done].
Qed.

(** What the code keeps of the lock.  In a state whose status is [Correct]
    or [Wrong], no sequence of pick, removeLast, hint and check calls
    re-enters [Idle]; sequences without check leave the status, the bank and
    the picked tiles as they are (pick and removeLast are ignored, hint only
    counts); and once [check] has run, sequences without hint leave the
    whole state as it is. *)
Theorem locked_states (s : state) (ops : list op) :
  status s ≠ Idle →
  status (run ops s) ≠ Idle
  ∧ (Check ∉ ops →
     status (run ops s) = status s ∧ picked (run ops s) = picked s
     ∧ shuffled (run ops s) = shuffled s)
  ∧ (Hint ∉ ops → run ops (check s) = check s).
Proof.
  intros H. split; [by apply run_status|]. split.
  - by apply run_locked.
  - apply run_settled; [by apply check_status|apply check_check].
Qed.

Lemma play_ops ops s : play (Op <$> ops) s = run ops s.
Proof. revert s. induction ops as [|o ops IH]; intros s; [done|apply IH]. Qed.

Lemma reachable_run ops g store : reachable (run ops (mount g store)).
Proof. exists g, store, (Op <$> ops). by rewrite play_ops. Qed.

Lemma locked_states_dragon :
  let s := run (spellDRAGO ++ [Check]) dragonStart in
  status s ≠ Idle ∧ status (run [Pick 3; RemoveLast; Hint] s) = status s.
Proof.
  intros s.
  assert (H : status s ≠ Idle) by (vm_compute; discriminate).
  split; [exact H|].
  apply (proj1 (proj2 (locked_states s [Pick 3; RemoveLast; Hint] H))).
  repeat (apply not_elem_of_cons; split; [discriminate|]).
  apply not_elem_of_nil.
Defined.

(** C2 (a defect of the code).  [onTileClick] and [removeLast] return at
    once when the status is not [Idle]; [check] and [hint] have no such
    guard, so a verdict does not lock.  DRAGON spelled in full is [Correct];
    one hint later the candidate that [check] rebuilds is DDRAGO, and the
    status turns to [Wrong].  With the tiles R, A, G, O, N picked the check
    yields [Wrong]; one hint later the candidate is DRAGON, and the status
    turns to [Correct]. *)
Theorem check_flips_verdict :
  let s := run (spellDRAGO ++ [Pick 3; Check]) dragonStart in
  let s' := run [Pick 9; Pick 2; Pick 4; Pick 10; Pick 3; Check] dragonStart in
  reachable s ∧ status s = Correct ∧ status (run [Hint; Check] s) = Wrong
  ∧ reachable s' ∧ status s' = Wrong ∧ status (run [Hint; Check] s') = Correct.
Proof.
  split; [apply reachable_run|].
  split; [vm_compute; reflexivity|]. split; [vm_compute; reflexivity|].
  split; [apply reachable_run|].
  split; vm_compute; reflexivity.
Qed.

(** ** Picking and removing *)

Lemma pick_valid k s :
  status s = Idle → validPick k s →
  ∃ c, shuffled s !! k = Some c ∧ c ≠ []
    ∧ pick k s =
        State (items s) (index s) (picked s ++ [TilePick c k])
          (<[k := []]> (shuffled s)) Idle (revealed s) (sessionStorage s).
Proof.
  intros Hst Hv. unfold validPick in Hv. apply andb_True in Hv as [Hc Hfree].
  destruct (shuffled s !! k) as [c|] eqn:E; [|done].
  apply bool_decide_unpack in Hc. apply bool_decide_unpack in Hfree.
  exists c. split; [done|]. split; [done|].
  unfold pick, onTileClick. rewrite E.
  rewrite (bool_decide_false (c = [])) by done.
  rewrite (bool_decide_false (status s ≠ Idle)) by (by rewrite Hst; intros []).
  rewrite bool_decide_false by (unfold letterSlotCount in Hfree; lia).
  by rewrite imap_update, Hst.
Qed.

Lemma removeLast_snoc s pk c k :
  status s = Idle → picked s = pk ++ [TilePick c k] →
  removeLast s =
    State (items s) (index s) pk (<[k := c]> (shuffled s)) Idle (revealed s)
      (sessionStorage s).
Proof.
  intros Hst Hpk. unfold removeLast. rewrite Hpk, last_snoc.
  rewrite (bool_decide_false (status s ≠ Idle)) by (by rewrite Hst; intros []).
  rewrite imap_update, Hst, length_app. simpl.
  by rewrite Nat.add_sub, take_app_length.
Qed.

Lemma pick_removeLast k s :
  status s = Idle → validPick k s → removeLast (pick k s) = s.
Proof.
  intros Hst Hv. destruct (pick_valid k s Hst Hv) as (c & Hc & _ & ->).
  erewrite removeLast_snoc; [|done|done]. simpl.
  rewrite list_insert_insert_eq, list_insert_id by done.
  destruct s; simpl in *. by subst.
Qed.

Lemma pick_status k s : status (pick k s) = status s.
Proof.
  unfold pick, onTileClick.
  destruct (shuffled s !! k); [|done]. by repeat case_bool_decide.
Qed.

Lemma picks_then_removes ks s :
  status s = Idle → validPicks ks s →
  run (replicate (length ks) RemoveLast) (run (Pick <$> ks) s) = s.
Proof.
  revert s. induction ks as [|k ks IH]; intros s Hst Hv; [done|].
  simpl in Hv. apply andb_True in Hv as [Hk Hks].
  cbn [length]. rewrite replicate_S_end, run_snoc, fmap_cons, run_cons.
  simpl. rewrite IH; [|by rewrite pick_status|done].
  by apply pick_removeLast.
Qed.

(** C9 (as amended).  From every state in [Idle], [n] valid picks (each on a
    tile that is present and not yet placed, with a letter slot still free)
    followed by [n] removeLast calls bring the bank back to its contents
    before the picks, and the picked tiles back to what they were before:
    none, when none were picked before. *)
Theorem pick_remove_inverse (s : state) (ks : list nat) :
  status s = Idle → validPicks ks s →
  let s' := run (replicate (length ks) RemoveLast) (run (Pick <$> ks) s) in
  shuffled s' = shuffled s ∧ picked s' = picked s
  ∧ (picked s = [] → picked s' = []).
Proof.
  intros Hst Hv s'. subst s'. rewrite picks_then_removes by done. done.
Qed.

Lemma pick_remove_inverse_dragon :
  let s' := run (replicate 3 RemoveLast) (run (Pick <$> [7; 9; 2]) dragonStart) in
  shuffled s' = shuffled dragonStart ∧ picked s' = [].
Proof.
  assert (Hst : status dragonStart = Idle) by (vm_compute; reflexivity).
  assert (Hv : validPicks [7; 9; 2] dragonStart) by (vm_compute; exact I).
  assert (Hpk : picked dragonStart = []) by (vm_compute; reflexivity).
  destruct (pick_remove_inverse dragonStart [7; 9; 2] Hst Hv) as (H1 & _ & H3).
  split; [exact H1 | exact (H3 Hpk)].
Defined.

(** C9 fails as stated on an [Idle] state with a tile already picked: after
    one more pick and one removeLast the first tile is still picked. *)
Lemma pick_remove_keeps_earlier_picks :
  let s := pick 7 dragonStart in
  let s' := run (replicate 1 RemoveLast) (run (Pick <$> [9]) s) in
  reachable s ∧ status s = Idle ∧ validPicks [9] s ∧ picked s' ≠ [].
Proof.
  split; [by exists draws, None, [Op (Pick 7)]|].
  vm_compute. split; [reflexivity|]. split; [exact I|discriminate].
Qed.

Lemma tiles_after_insert (bank : list jsstring) k x ks cs :
  Forall2 (λ k' c, bank !! k' = Some c ∧ c ≠ []) ks cs → k ∉ ks →
  Forall2 (λ k' c, <[k := x]> bank !! k' = Some c ∧ c ≠ []) ks cs.
Proof.
  induction 1 as [|k' c ks cs [Hk Hc] HF IH]; intros Hnotin; [constructor|].
  apply not_elem_of_cons in Hnotin as [Hne Hnotin].
  constructor; [|by apply IH].
  by rewrite list_lookup_insert_ne.
Qed.

Lemma picks_effect ks cs s :
  status s = Idle →
  Forall2 (λ k c, shuffled s !! k = Some c ∧ c ≠ []) ks cs →
  NoDup ks →
  length (picked s) + revealed s + length ks ≤ letterSlotCount s →
  run (Pick <$> ks) s =
    State (items s) (index s) (picked s ++ zip_with TilePick cs ks)
      (clearTiles ks (shuffled s)) Idle (revealed s) (sessionStorage s).
Proof.
  revert cs s. induction ks as [|k ks IH]; intros cs s Hst HF Hnd Hlen.
  - apply Forall2_nil_inv_l in HF as ->. simpl. rewrite app_nil_r.
    destruct s; simpl in *. by subst.
  - apply Forall2_cons_inv_l in HF as (c & cs' & [Hk Hc] & HF & ->).
    apply NoDup_cons in Hnd as [Hk' Hnd]. simpl in Hlen.
    rewrite fmap_cons, run_cons. simpl.
    destruct (pick_valid k s Hst) as (c' & Hc' & _ & Hpick).
    { unfold validPick. rewrite Hk.
      apply andb_True; split; apply bool_decide_pack; [done|lia]. }
    rewrite Hk in Hc'. injection Hc' as <-.
    rewrite Hpick, (IH cs'); clear IH.
    + simpl. by rewrite <-app_assoc.
    + done.
    + simpl. by apply tiles_after_insert.
    + done.
    + simpl. rewrite length_app. simpl.
      change (letterSlotCount (State _ _ _ _ _ _ _)) with (letterSlotCount s). lia.
Qed.

Lemma letterSlotCount_eq s :
  letterSlotCount s = length (letterSlots (displayWordOf (target s) (revealed s))).
Proof. done. Qed.

Lemma target_current s : target s ≠ [] → is_Some (current s).
Proof.
  unfold target. destruct (current s); [eauto|]. intros H. by destruct H.
Qed.

(** Two different tiles cannot sit at one bank position. *)
Ltac tile_clash :=
  match goal with
  | H1 : ?l !! ?k = Some ?a, H2 : ?l !! ?k = Some ?b |- _ =>
      rewrite H1 in H2; vm_compute in H2; discriminate
  end.

(** C6 (as amended).  On the target DRAGON with no hint used, after picking
    tiles that spell D, R, A, G, O, check() yields [Wrong]; the engine is
    then locked, so a pick of a tile holding N is ignored and check() yields
    [Wrong] again; when N is picked as the sixth tile before checking,
    check() yields [Correct]. *)
Theorem dragon_one_short (s : state) (kD kR kA kG kO kN : nat) :
  target s = str "DRAGON" → status s = Idle → picked s = [] → revealed s = 0 →
  shuffled s !! kD = Some (str "D") → shuffled s !! kR = Some (str "R") →
  shuffled s !! kA = Some (str "A") → shuffled s !! kG = Some (str "G") →
  shuffled s !! kO = Some (str "O") → shuffled s !! kN = Some (str "N") →
  let s5 := run [Pick kD; Pick kR; Pick kA; Pick kG; Pick kO] s in
  status (check s5) = Wrong
  ∧ pick kN (check s5) = check s5
  ∧ status (check (pick kN (check s5))) = Wrong
  ∧ status (check (pick kN s5)) = Correct.
Proof.
  intros Htgt Hst Hpk Hrev HD HR HA HG HO HN s5.
  assert (Hcount : letterSlotCount s = 6).
  { rewrite letterSlotCount_eq, Htgt, Hrev. by vm_compute. }
  assert (Hnd : NoDup [kD; kR; kA; kG; kO; kN]).
  { repeat (apply NoDup_cons; split); [..|apply NoDup_nil_2];
      rewrite ?elem_of_cons, elem_of_nil; intros H;
      repeat (destruct H as [->|H]); try done; tile_clash. }
  destruct (target_current s) as [it Hit]; [by rewrite Htgt|].
  assert (H6 : pick kN s5 =
    State (items s) (index s)
      (zip_with TilePick (str <$> ["D"; "R"; "A"; "G"; "O"; "N"]%string)
         [kD; kR; kA; kG; kO; kN])
      (clearTiles [kD; kR; kA; kG; kO; kN] (shuffled s)) Idle 0
      (sessionStorage s)).
  { change (pick kN s5) with (run (Pick <$> [kD; kR; kA; kG; kO; kN]) s).
    rewrite (picks_effect _ (str <$> ["D"; "R"; "A"; "G"; "O"; "N"]%string));
      [by rewrite Hpk, Hrev|done| |done|rewrite Hpk, Hrev, Hcount; simpl; lia].
    repeat (constructor; [by split|]). constructor. }
  assert (H5 : s5 =
    State (items s) (index s)
      (zip_with TilePick (str <$> ["D"; "R"; "A"; "G"; "O"]%string)
         [kD; kR; kA; kG; kO])
      (clearTiles [kD; kR; kA; kG; kO] (shuffled s)) Idle 0
      (sessionStorage s)).
  { change s5 with (run (Pick <$> [kD; kR; kA; kG; kO]) s).
    rewrite (picks_effect _ (str <$> ["D"; "R"; "A"; "G"; "O"]%string));
      [by rewrite Hpk, Hrev|done| | |rewrite Hpk, Hrev, Hcount; simpl; lia].
    - repeat (constructor; [by split|]). constructor.
    - eapply (NoDup_app [_; _; _; _; _] [_]), Hnd. }
  assert (Hwrong : status (check s5) = Wrong).
  { rewrite H5. rewrite (check_current (State _ _ _ _ _ _ _) it Hit). simpl.
    change (target (State _ _ _ _ _ _ _)) with (target s). rewrite Htgt.
    by vm_compute. }
  assert (Hlock : pick kN (check s5) = check s5).
  { apply pick_locked. by rewrite Hwrong. }
  split; [done|]. split; [done|]. split.
  - rewrite Hlock, check_check. done.
  - rewrite H6. rewrite (check_current (State _ _ _ _ _ _ _) it Hit). simpl.
    change (target (State _ _ _ _ _ _ _)) with (target s). rewrite Htgt.
    by vm_compute.
Qed.

Lemma dragon_one_short_example :
  let s5 := run spellDRAGO dragonStart in
  status (check s5) = Wrong
  ∧ status (check (pick 3 (check s5))) = Wrong
  ∧ status (check (pick 3 s5)) = Correct.
Proof.
  destruct (dragon_one_short dragonStart 7 9 2 4 10 3)
    as (H1 & _ & H3 & H4); try (vm_compute; reflexivity).
  exact (conj H1 (conj H3 H4)).
Defined.

(** C6 fails as stated: after D, R, A, G, O the check yields [Wrong], the
    pick of the tile N is then ignored, and the second check yields [Wrong],
    not [Correct]. *)
Lemma dragon_pick_after_wrong :
  let s5 := check (run spellDRAGO dragonStart) in
  target dragonStart = str "DRAGON" ∧ revealed s5 = 0
  ∧ ch <$> picked s5 = str <$> ["D"; "R"; "A"; "G"; "O"]%string
  ∧ status s5 = Wrong
  ∧ shuffled s5 !! 3 = Some (str "N")
  ∧ status (check (pick 3 s5)) ≠ Correct.
Proof. vm_compute. repeat (split; [reflexivity|]). discriminate. Qed.

(** ** Conservation of the letters *)

Lemma filter_insert_present (l : list jsstring) k c :
  l !! k = Some c → c ≠ [] →
  filter (λ c, c ≠ []) l ≡ₚ c :: filter (λ c, c ≠ []) (<[k := []]> l).
Proof.
  intros Hk Hc.
  rewrite insert_take_drop by (by eapply lookup_lt_Some).
  rewrite <-(take_drop_middle l k c) at 1 by done.
  rewrite !filter_app, filter_cons_True, (filter_cons_False _ []) by tauto.
  by rewrite Permutation_middle.
Qed.

Lemma filter_present_id (l : list jsstring) :
  Forall (λ c, c ≠ []) l → filter (λ c, c ≠ []) l = l.
Proof.
  induction 1 as [|c l Hc Hl IH]; [done|].
  by rewrite filter_cons_True, IH.
Qed.

Lemma ALPHA_at_present k : k < length ALPHA → ALPHA_at k ≠ [].
Proof.
  intros H. unfold ALPHA_at. destruct (ALPHA !! k) eqn:E; [done|].
  apply lookup_ge_None in E. lia.
Qed.

Lemma fillers_present n g base :
  Forall (λ c, c ≠ []) base → Forall (λ c, c ≠ []) (fillers n g base).1.
Proof.
  revert g base. induction n as [|n IH]; intros g base Hbase; [done|].
  apply IH. apply Forall_app. split; [done|].
  constructor; [|constructor].
  apply ALPHA_at_present, Nat.mod_upper_bound. by vm_compute.
Qed.

Lemma split1_present w : Forall (λ c, c ≠ []) (split1 w).
Proof. apply Forall_fmap, Forall_forall. by intros c _. Qed.

Lemma makeLetterBank_present g nt : Forall (λ c, c ≠ []) (makeLetterBank g nt).1.
Proof.
  rewrite makeLetterBank_unfold. apply Forall_take.
  rewrite shuffle_Permutation. apply fillers_present, split1_present.
Qed.

Lemma conserved_ext bank s s' :
  picked s' = picked s → shuffled s' = shuffled s →
  conserved bank s → conserved bank s'.
Proof.
  unfold conserved, lettersInPlay, indicesOk. intros -> ->. done.
Qed.

Lemma pick_invalid k s : ¬ validPick k s → pick k s = s.
Proof.
  intros Hv. unfold validPick in Hv.
  destruct (shuffled s !! k) as [c|] eqn:E; [|by unfold pick; rewrite E].
  destruct (decide (c = [])) as [->|Hc]; [by apply pick_empty_tile|].
  apply pick_full. rewrite (bool_decide_true (c ≠ [])) in Hv by done.
  simpl in Hv. rewrite bool_decide_spec in Hv. lia.
Qed.

Lemma conserved_pick bank k s : conserved bank s → conserved bank (pick k s).
Proof.
  intros (Hperm & [Hnd Hempty] & Hch).
  destruct (decide (status s = Idle)) as [Hst|Hst]; [|by rewrite pick_locked].
  destruct (decide (validPick k s)) as [Hv|Hv]; [|by rewrite pick_invalid].
  destruct (pick_valid k s Hst Hv) as (c & Hk & Hc & ->).
  split; [|split]; unfold lettersInPlay, indicesOk; simpl.
  - rewrite fmap_app. simpl.
    rewrite <-Hperm. unfold lettersInPlay.
    rewrite (filter_insert_present (shuffled s) k c) by done.
    by rewrite (comm (++) (ch <$> picked s)), (assoc (++)), <-Permutation_cons_append.
  - split.
    + rewrite fmap_app. simpl. apply NoDup_app. split; [done|]. split; [|apply NoDup_singleton].
      intros j Hj Hjk. apply list_elem_of_singleton in Hjk.
      apply list_elem_of_fmap in Hj as (p & Hjp & Hp).
      specialize (Hempty p Hp). congruence.
    + intros p [Hp| ->%list_elem_of_singleton]%elem_of_app.
      * rewrite list_lookup_insert_ne; [by apply Hempty|].
        intros Heq. specialize (Hempty p Hp). congruence.
      * simpl. apply list_lookup_insert_eq. by eapply lookup_lt_Some.
  - apply Forall_app. split; [done|]. by constructor.
Qed.

Lemma conserved_removeLast bank s : conserved bank s → conserved bank (removeLast s).
Proof.
  intros (Hperm & [Hnd Hempty] & Hch).
  destruct (decide (status s = Idle)) as [Hst|Hst]; [|by rewrite removeLast_locked].
  destruct (last (picked s)) as [[c k]|] eqn:Hlast.
  2: { rewrite removeLast_empty; [done|]. by apply last_None. }
  apply last_Some in Hlast as [pk Hpk].
  rewrite (removeLast_snoc s pk c k Hst Hpk).
  rewrite Hpk in Hnd, Hempty, Hch. unfold lettersInPlay in Hperm. rewrite Hpk in Hperm.
  rewrite fmap_app in Hnd. rewrite (fmap_app ch) in Hperm. simpl in Hnd, Hperm.
  apply NoDup_app in Hnd as (Hnd & Hk & _).
  apply Forall_app in Hch as [Hch Hc]. rewrite Forall_singleton in Hc. simpl in Hc.
  assert (Hsk : shuffled s !! k = Some []).
  { apply (Hempty (TilePick c k)). apply elem_of_app. right. apply list_elem_of_singleton. done. }
  split; [|split]; unfold lettersInPlay, indicesOk; simpl.
  - rewrite <-Hperm.
    rewrite (filter_insert_present (<[k:=c]> (shuffled s)) k c); [| |done].
    + rewrite list_insert_insert_eq, list_insert_id by done. simpl.
      by rewrite (assoc (++)), <-Permutation_cons_append.
    + apply list_lookup_insert_eq. by eapply lookup_lt_Some.
  - split; [done|]. intros p Hp.
    rewrite list_lookup_insert_ne.
    + apply Hempty, elem_of_app. by left.
    + intros Heq. apply (Hk (i p)); [by apply list_elem_of_fmap_2|].
      by apply list_elem_of_singleton.
  - done.
Qed.

Lemma check_fields s :
  picked (check s) = picked s ∧ shuffled (check s) = shuffled s
  ∧ items (check s) = items s ∧ index (check s) = index s
  ∧ revealed (check s) = revealed s.
Proof. unfold check. by destruct (current s). Qed.

Lemma conserved_step bank o s : conserved bank s → conserved bank (step o s).
Proof.
  destruct o as [k| | |]; simpl.
  - apply conserved_pick.
  - apply conserved_removeLast.
  - destruct (hint_fields s) as (_ & ? & ? & _). by apply conserved_ext.
  - destruct (check_fields s) as (? & ? & _). by apply conserved_ext.
Qed.

Lemma conserved_fresh (bank : list jsstring) s :
  Forall (λ c, c ≠ []) bank → picked s = [] → shuffled s = bank →
  conserved bank s.
Proof.
  intros Hbank Hpk Hsh. unfold conserved, lettersInPlay, indicesOk.
  rewrite Hpk, Hsh, filter_present_id by done. simpl. rewrite app_nil_r.
  split; [done|]. split; [|constructor].
  split; [constructor|]. intros p Hp. by apply elem_of_nil in Hp.
Qed.

Lemma conserved_initPuzzle g s :
  is_Some (current s) → conserved (shuffled (initPuzzle g s)) (initPuzzle g s).
Proof.
  intros [it Hit]. unfold initPuzzle. rewrite Hit.
  pose proof (makeLetterBank_present g (normalizedTarget s)) as Hpres.
  destruct (makeLetterBank g (normalizedTarget s)) as [bank g1]. simpl in *.
  apply conserved_fresh; [|done|done]. by rewrite shuffle_Permutation.
Qed.

Lemma reset_bank g s :
  shuffled (reset g s) ≡ₚ filter (λ c, c ≠ []) (shuffled s)
  ∧ picked (reset g s) = [] ∧ status (reset g s) = Idle
  ∧ revealed (reset g s) = 0.
Proof. unfold reset. simpl. by rewrite shuffle_Permutation. Qed.

Lemma conserved_reset g s : conserved (shuffled (reset g s)) (reset g s).
Proof.
  apply conserved_fresh; [|done|done].
  destruct (reset_bank g s) as (-> & _).
  apply Forall_forall. by intros c [Hc _]%list_elem_of_filter.
Qed.

Lemma conserved_shuffleBank bank g s :
  picked s = [] → conserved bank s → conserved bank (shuffleBank g s).
Proof.
  intros Hpk (Hperm & _ & _). unfold conserved, lettersInPlay, indicesOk in *.
  simpl. rewrite Hpk in *. simpl in *.
  rewrite shuffle_Permutation. split; [done|]. split; [|constructor].
  split; [constructor|]. intros p Hp. by apply elem_of_nil in Hp.
Qed.

Lemma attempt_conserved bank s : attempt bank s → conserved bank s.
Proof.
  induction 1 as [g s Hcur|bank o s _ IH|bank g s _ IH Hpk|bank g s _ _].
  - by apply conserved_initPuzzle.
  - by apply conserved_step.
  - by apply conserved_shuffleBank.
  - apply conserved_reset.
Qed.

(** C4 (as amended).  In every state reached from the initialisation of a
    puzzle through pick, removeLast, hint, check, reset, and bank reshuffles
    made while no tile is picked, the non-empty bank tiles together with the
    picked letters are, as a multiset, the bank as it was generated or as
    the last reset left it; the bank indices recorded in the picked tiles
    are pairwise different and point at positions that are empty.  A reset
    keeps the tiles that are still in the bank, in some order, and forgets
    the picked ones. *)
Theorem letters_conserved (bank : list jsstring) (s : state) :
  attempt bank s →
  lettersInPlay s ≡ₚ bank ∧ indicesOk s
  ∧ ∀ g, shuffled (reset g s) ≡ₚ filter (λ c, c ≠ []) (shuffled s)
         ∧ picked (reset g s) = [].
Proof.
  intros H. destruct (attempt_conserved bank s H) as (H1 & H2 & _).
  split; [done|]. split; [done|].
  intros g. by destruct (reset_bank g s) as (? & ? & _).
Qed.

Lemma attempt_run ops bank s : attempt bank s → attempt bank (run ops s).
Proof.
  revert s. induction ops as [|o ops IH]; intros s H; [done|].
  rewrite run_cons. by apply IH, attempt_step.
Qed.

Lemma attempt_mount g store :
  is_Some (loadItems store !! 0) →
  attempt (shuffled (mount g store)) (mount g store).
Proof. intros H. by apply attempt_init. Qed.

Lemma letters_conserved_dragon :
  let s := run [Pick 7; Pick 9; RemoveLast; Hint; Check] dragonStart in
  lettersInPlay s ≡ₚ shuffled dragonStart ∧ indicesOk s.
Proof.
  intros s.
  assert (H : attempt (shuffled dragonStart) s).
  { apply attempt_run, attempt_mount. vm_compute. eexists. reflexivity. }
  destruct (letters_conserved (shuffled dragonStart) s H) as (H1 & H2 & _).
  exact (conj H1 H2).
Defined.

(** C4 fails as stated: after one pick, reset forgets the picked tile, and
    the letters in play are one fewer than the generated bank. *)
Lemma reset_drops_picked_letter :
  let s := reset draws (pick 7 dragonStart) in
  reachable s ∧ ¬ lettersInPlay s ≡ₚ shuffled dragonStart.
Proof.
  split; [by exists draws, None, [Op (Pick 7); Reset draws]|].
  intros H%Permutation_length. vm_compute in H. discriminate.
Qed.

(** ** Revealing letters *)

(** C3, at the failing input.  On the target [A-B] two hints set the
    revealed count to 2, the number of letter slots, and the first two
    letter slots are the positions 0 and 2; but the slots that the view and
    [check] treat as revealed are the letters among the first two
    characters, the position 0 alone.  The slot of B shows nothing, every
    pick is refused because all letter slots count as filled, the candidate
    is [A-] and check() yields [Wrong]. *)
Theorem reveal_counts_characters :
  let s := run [Hint; Hint] hyphenStart in
  target s = str "A-B" ∧ revealed s = 2 ∧ letterSlotCount s = 2
  ∧ firstLetterSlots 2 (target s) = [0; 2]
  ∧ revealedPositions (displayWord s) = [0]
  ∧ slotText s 2 = []
  ∧ rebuildWithPunctuation (picked s) (displayWord s) (revealed s) = str "A-"
  ∧ (∀ k, pick k s = s)
  ∧ status (check s) = Wrong.
Proof.
  intros s.
  assert (Hcount : letterSlotCount s = 2) by (vm_compute; reflexivity).
  assert (Hrev : revealed s = 2) by (vm_compute; reflexivity).
  repeat (split; [vm_compute; reflexivity|]).
  split; [|vm_compute; reflexivity].
  intros k. apply pick_full. rewrite Hcount, Hrev. lia.
Qed.

(** ** Ingestion *)

(** What the emptiness test of the upload rejects.  When the parse of an
    upload throws, or yields no item, the failure is reported and the state
    (the word list, the index and the session store with it) is left as it
    was. *)
Theorem upload_rejected (g : rng) (f : file) (s : state) :
  parseFile f = None ∨ parseFile f = Some [] →
  ∃ e, onUpload g f s = (Some e, s)
       ∧ items (onUpload g f s).2 = items s
       ∧ index (onUpload g f s).2 = index s
       ∧ sessionStorage (onUpload g f s).2 = sessionStorage s.
Proof.
  intros [H|H]; unfold onUpload; rewrite H; simpl.
  - by exists RuntimeError.
  - by exists NoWords.
Qed.

Lemma upload_rejected_header_only :
  parseFile headerOnlyCSV = Some []
  ∧ ∃ e, onUpload draws headerOnlyCSV dragonStart = (Some e, dragonStart).
Proof.
  assert (H : parseFile headerOnlyCSV = Some []) by (vm_compute; reflexivity).
  split; [exact H|].
  destruct (upload_rejected draws headerOnlyCSV dragonStart (or_intror H))
    as (e & He & _).
  exists e. exact He.
Defined.

(** C5 (a defect of the code).  The upload tests [parsed.length === 0]
    before [dedupe], which drops the items whose key is empty.  A text file
    whose only line is [...] parses to one item, whose key is empty: the
    upload reports no failure and replaces the word list and the stored
    list of the session by the empty list. *)
Theorem wordless_upload_accepted :
  let r := onUpload draws dotsFile dragonStart in
  parseFile dotsFile = Some [Item.mk (str "...") None]
  ∧ key (Item.mk (str "...") None) = []
  ∧ r.1 = None
  ∧ items dragonStart = defaultSet ∧ items r.2 = []
  ∧ sessionStorage dragonStart = None ∧ sessionStorage r.2 = Some [].
Proof. vm_compute. repeat split; reflexivity. Qed.

(** ** An empty word list *)






Lemma mount_empty g : mount g (Some []) = State [] 0 [] [] Idle 0 (Some []).
Proof. done. Qed.




(** ** Deduplication *)

Lemma dedupeFrom_nil seen : dedupeFrom seen [] = [].
Proof. done. Qed.

Lemma dedupeFrom_cons seen it arr :
  dedupeFrom seen (it :: arr) =
  if bool_decide (key it = []) then dedupeFrom seen arr
  else if bool_decide (key it ∈ seen) then dedupeFrom seen arr
  else display it :: dedupeFrom ({[key it]} ∪ seen) arr.
Proof. done. Qed.

Lemma dedupeFrom_snoc seen arr it :
  dedupeFrom seen (arr ++ [it]) =
  dedupeFrom seen arr
  ++ (if bool_decide (key it = [] ∨ key it ∈ seen ∨ key it ∈ key <$> arr)
      then [] else [display it]).
Proof.
  revert seen. induction arr as [|a arr IH]; intros seen.
  - rewrite app_nil_l, dedupeFrom_cons, !dedupeFrom_nil, fmap_nil, app_nil_l.
    destruct (decide (key it = [])) as [E|E].
    { by rewrite !bool_decide_true by tauto. }
    rewrite (bool_decide_false (key it = [])) by done.
    destruct (decide (key it ∈ seen)) as [E'|E'].
    { by rewrite !bool_decide_true by tauto. }
    rewrite (bool_decide_false (key it ∈ seen)) by done.
    rewrite bool_decide_false; [done|].
    rewrite elem_of_nil. tauto.
  - rewrite <-app_comm_cons, !dedupeFrom_cons, fmap_cons.
    destruct (decide (key a = [])) as [Ea|Ea].
    { rewrite (bool_decide_true (key a = [])) by done. rewrite IH.
      f_equal. erewrite bool_decide_ext; [reflexivity|].
      rewrite elem_of_cons. split; [tauto|].
      intros [?|[?|[?|?]]]; [tauto|tauto|left; congruence|tauto]. }
    rewrite (bool_decide_false (key a = [])) by done.
    destruct (decide (key a ∈ seen)) as [Es|Es].
    { rewrite (bool_decide_true (key a ∈ seen)) by done. rewrite IH.
      f_equal. erewrite bool_decide_ext; [reflexivity|].
      rewrite elem_of_cons. split; [tauto|].
      intros [?|[?|[?|?]]]; [tauto|tauto|right; left; congruence|tauto]. }
    rewrite (bool_decide_false (key a ∈ seen)) by done.
    rewrite IH, <-app_comm_cons. do 2 f_equal.
    erewrite bool_decide_ext; [reflexivity|].
    rewrite elem_of_cons, elem_of_union, elem_of_singleton. tauto.
Qed.

Lemma dedupe_snoc arr it :
  dedupe (arr ++ [it]) =
  if bool_decide (key it = [] ∨ key it ∈ key <$> arr) then dedupe arr
  else dedupe arr ++ [display it].
Proof.
  unfold dedupe. rewrite dedupeFrom_snoc.
  rewrite (bool_decide_ext
             (key it = [] ∨ key it ∈ (∅ : gset jsstring) ∨ key it ∈ key <$> arr)
             (key it = [] ∨ key it ∈ key <$> arr))
    by (rewrite elem_of_empty; tauto).
  case_bool_decide; [by rewrite app_nil_r|done].
Qed.

Lemma dedupe_distinct arr :
  Forall (λ it, key it ≠ []) arr → NoDup (key <$> arr) →
  dedupe arr = display <$> arr.
Proof.
  induction arr as [|it arr IH] using rev_ind; intros Hkeys Hnd; [done|].
  apply Forall_app in Hkeys as [Hkeys Hit]. rewrite Forall_singleton in Hit.
  rewrite fmap_app in Hnd. apply NoDup_app in Hnd as (Hnd & Hdisj & _).
  rewrite dedupe_snoc, bool_decide_false, IH, fmap_app; [done|done|done|].
  intros [?|Hin]; [done|]. apply (Hdisj _ Hin). by left.
Qed.

(** ** Text files *)

Lemma filter_all {A} (P : A → Prop) `{∀ x, Decision (P x)} (l : list A) :
  Forall P l → filter P l = l.
Proof.
  induction 1 as [|x l Hx Hl IH]; [done|].
  by rewrite filter_cons_True, IH.
Qed.

Lemma splitLinesFrom_app cur l w :
  Forall (λ c, isLineBreak c = false) l →
  splitLinesFrom cur (l ++ w) = splitLinesFrom (cur ++ l) w.
Proof.
  intros Hl. revert cur. induction Hl as [|c l Hc Hl IH]; intros cur.
  - by rewrite app_nil_r.
  - unfold isLineBreak in Hc. apply orb_false_elim in Hc as [H10 H13].
    rewrite <-app_comm_cons. cbn [splitLinesFrom]. rewrite H10, H13. simpl.
    rewrite (cons_middle c cur l), app_assoc, <-IH.
    by destruct (l ++ w).
Qed.

Lemma splitLinesFrom_lf cur w :
  splitLinesFrom cur (10%N :: w) = cur :: splitLinesFrom [] w.
Proof. done. Qed.

Lemma joinLines_cons l l' lines :
  joinLines (l :: l' :: lines) = l ++ 10%N :: joinLines (l' :: lines).
Proof. done. Qed.

Lemma splitLines_joinLines l lines :
  Forall (Forall (λ c, isLineBreak c = false)) (l :: lines) →
  splitLines (joinLines (l :: lines)) = l :: lines.
Proof.
  unfold splitLines. revert l.
  induction lines as [|l' lines IH]; intros l Hlines;
    apply Forall_cons in Hlines as [Hl Hlines].
  - simpl. rewrite <-(app_nil_r l) at 1. by rewrite splitLinesFrom_app.
  - rewrite joinLines_cons, splitLinesFrom_app, app_nil_l by done.
    by rewrite splitLinesFrom_lf, IH.
Qed.

Lemma splitOnFrom_app sep cur l w :
  Forall (λ c, sep c = false) l →
  splitOnFrom sep cur (l ++ w) = splitOnFrom sep (cur ++ l) w.
Proof.
  intros Hl. revert cur. induction Hl as [|c l Hc Hl IH]; intros cur.
  - by rewrite app_nil_r.
  - rewrite <-app_comm_cons. cbn [splitOnFrom]. rewrite Hc.
    by rewrite (cons_middle c cur l), app_assoc, <-IH.
Qed.

Lemma trimStart_id w : startsClean w → trimStart w = w.
Proof.
  destruct w as [|c w]; [done|]. simpl. by destruct (isSpace c).
Qed.

Lemma trimEnd_id w : startsClean (reverse w) → trimEnd w = w.
Proof.
  intros H. unfold trimEnd. by rewrite trimStart_id, reverse_involutive.
Qed.

Lemma trim_id w : startsClean w → startsClean (reverse w) → trim w = w.
Proof. intros H1 H2. unfold trim. by rewrite trimStart_id, trimEnd_id. Qed.

Lemma startsClean_app w x : startsClean w → startsClean (w ++ x).
Proof. by destruct w. Qed.

Lemma startsClean_nonempty w : startsClean w → w ≠ [].
Proof. by destruct w. Qed.

Lemma cleanField_spec w :
  cleanField w →
  startsClean w ∧ startsClean (reverse w)
  ∧ Forall (λ c, isLineBreak c = false) w
  ∧ Forall (λ c, (124 =? c)%N = false) w.
Proof.
  unfold cleanField. intros [[H1 H2]%andb_True H3]%andb_True.
  split; [done|]. split; [done|].
  apply forallb_True in H3.
  split; (eapply Forall_impl; [exact H3|]); intros c Hc; cbv beta in Hc;
    apply andb_True in Hc as [Hc1 Hc2].
  - by destruct (isLineBreak c).
  - rewrite N.eqb_sym. by destruct (c =? 124)%N.
Qed.

Lemma splitOn_clean w :
  Forall (λ c, (124 =? c)%N = false) w → splitOn (N.eqb 124) w = [w].
Proof.
  intros H. unfold splitOn. rewrite <-(app_nil_r w) at 1.
  by rewrite splitOnFrom_app.
Qed.

Lemma splitOnFrom_sep sep cur c w :
  sep c = true → splitOnFrom sep cur (c :: w) = cur :: splitOnFrom sep [] w.
Proof. intros H. cbn [splitOnFrom]. by rewrite H. Qed.

Lemma splitOnFrom_other sep cur c w :
  sep c = false → splitOnFrom sep cur (c :: w) = splitOnFrom sep (cur ++ [c]) w.
Proof. intros H. cbn [splitOnFrom]. by rewrite H. Qed.

Lemma splitOn_word_hint w h :
  Forall (λ c, (124 =? c)%N = false) w →
  Forall (λ c, (124 =? c)%N = false) h →
  splitOn (N.eqb 124) (w ++ str " | " ++ h) = [w ++ [32%N]; 32%N :: h].
Proof.
  intros Hw Hh. unfold splitOn. rewrite splitOnFrom_app, app_nil_l by done.
  change (str " | " ++ h) with (32%N :: 124%N :: 32%N :: h).
  rewrite splitOnFrom_other, splitOnFrom_sep by done. f_equal.
  rewrite splitOnFrom_other, app_nil_l by done.
  rewrite <-(app_nil_r h) at 1. by rewrite splitOnFrom_app.
Qed.

Lemma trim_word_space w :
  startsClean w → startsClean (reverse w) → trim (w ++ [32%N]) = w.
Proof.
  intros H1 H2. unfold trim.
  rewrite trimStart_id by by apply startsClean_app.
  unfold trimEnd. rewrite reverse_snoc. simpl.
  by rewrite trimStart_id, reverse_involutive.
Qed.

Lemma trim_space_hint h :
  startsClean h → startsClean (reverse h) → trim (32%N :: h) = h.
Proof.
  intros H1 H2. unfold trim. simpl. by rewrite trimStart_id, trimEnd_id.
Qed.

Lemma parseLine_entryLine it : validEntry it → parseLine (entryLine it) = it.
Proof.
  unfold validEntry. intros [[Hw _]%andb_True Hh]%andb_True.
  apply cleanField_spec in Hw as (Hw1 & Hw2 & _ & Hw4).
  destruct it as [w [h|]]; unfold entryLine, parseLine;
    cbn [Item.word Item.hint] in *.
  - apply cleanField_spec in Hh as (Hh1 & Hh2 & _ & Hh4).
    rewrite splitOn_word_hint by done. cbn [lookup list_lookup default].
    rewrite bool_decide_false by done. unfold id.
    by rewrite trim_word_space, trim_space_hint.
  - rewrite splitOn_clean by done. cbn [lookup list_lookup default]. unfold id.
    by rewrite trim_id.
Qed.

Lemma entryLine_clean it :
  validEntry it →
  startsClean (entryLine it) ∧ startsClean (reverse (entryLine it))
  ∧ Forall (λ c, isLineBreak c = false) (entryLine it).
Proof.
  unfold validEntry. intros [[Hw _]%andb_True Hh]%andb_True.
  apply cleanField_spec in Hw as (Hw1 & Hw2 & Hw3 & _).
  destruct it as [w [h|]]; unfold entryLine; cbn [Item.word Item.hint] in *;
    [|done].
  apply cleanField_spec in Hh as (Hh1 & Hh2 & Hh3 & _).
  split; [by apply startsClean_app|]. split.
  - rewrite !reverse_app. by do 2 apply startsClean_app.
  - apply Forall_app. split; [done|]. apply Forall_app. split; [|done].
    by repeat constructor.
Qed.

Lemma parseTXT_textOf entries :
  Forall (λ it, validEntry it) entries → parseTXT (textOf entries) = entries.
Proof.
  intros Hvalid. destruct entries as [|it entries]; [done|].
  unfold parseTXT, textOf. rewrite fmap_cons, splitLines_joinLines.
  2: { rewrite <-fmap_cons. apply Forall_fmap.
       eapply Forall_impl; [exact Hvalid|]. intros x Hx. by apply entryLine_clean. }
  rewrite <-fmap_cons.
  assert (Htrim : trim <$> (entryLine <$> it :: entries) = entryLine <$> it :: entries).
  { rewrite <-(list_fmap_id (entryLine <$> _)) at 2. apply Forall_fmap_ext.
    apply Forall_fmap. eapply Forall_impl; [exact Hvalid|]. intros x Hx. simpl.
    destruct (entryLine_clean x Hx) as (? & ? & _). by apply trim_id. }
  rewrite Htrim, (filter_all nonEmpty).
  2: { apply Forall_fmap. eapply Forall_impl; [exact Hvalid|]. intros x Hx. simpl.
       destruct (entryLine_clean x Hx) as (? & _). by apply startsClean_nonempty. }
  rewrite <-list_fmap_compose.
  assert (Hparse : (parseLine ∘ entryLine) <$> it :: entries = it :: entries).
  { rewrite <-(list_fmap_id (it :: entries)) at 2. apply Forall_fmap_ext.
    eapply Forall_impl; [exact Hvalid|]. intros x Hx. simpl.
    by apply parseLine_entryLine. }
  rewrite Hparse. apply filter_all.
  eapply Forall_impl; [exact Hvalid|]. intros x Hx.
  unfold validEntry in Hx. apply andb_True in Hx as [[Hw _]%andb_True _].
  apply cleanField_spec in Hw as (Hw & _).
  destruct (Item.word x); [done|simpl; lia].
Qed.

Lemma initPuzzle_fields g s :
  items (initPuzzle g s) = items s ∧ index (initPuzzle g s) = index s
  ∧ sessionStorage (initPuzzle g s) = sessionStorage s.
Proof.
  unfold initPuzzle. destruct (current s); [|done].
  by destruct (makeLetterBank g (normalizedTarget s)).
Qed.

Lemma rerender_fields g old new :
  items (rerender g old new) = items new
  ∧ index (rerender g old new) = index new
  ∧ sessionStorage (rerender g old new) = sessionStorage new.
Proof. unfold rerender. case_bool_decide; [done|apply initPuzzle_fields]. Qed.

Lemma upload_accepted g f s parsed :
  parseFile f = Some parsed → parsed ≠ [] → storeThrows f = false →
  (onUpload g f s).1 = None
  ∧ items (onUpload g f s).2 = take 20 (dedupe parsed)
  ∧ index (onUpload g f s).2 = 0
  ∧ sessionStorage (onUpload g f s).2 = Some (take 20 (dedupe parsed)).
Proof.
  intros Hp Hne Hq. unfold onUpload. rewrite Hp, Hq.
  rewrite bool_decide_false by (by destruct parsed).
  simpl. split; [done|]. apply rerender_fields.
Qed.

Lemma upload_refused g f s parsed :
  parseFile f = Some parsed → parsed ≠ [] → storeThrows f = true →
  (onUpload g f s).1 = Some RuntimeError
  ∧ items (onUpload g f s).2 = take 20 (dedupe parsed)
  ∧ index (onUpload g f s).2 = index s
  ∧ sessionStorage (onUpload g f s).2 = sessionStorage s.
Proof.
  intros Hp Hne Hq. unfold onUpload. rewrite Hp, Hq.
  rewrite bool_decide_false by (by destruct parsed).
  cbn [fst snd]. split; [done|].
  by destruct (rerender_fields g s
    (State (take 20 (dedupe parsed)) (index s) (picked s) (shuffled s)
       (status s) (revealed s) (sessionStorage s))) as (-> & -> & ->).
Qed.

Lemma upload_installed g f s parsed :
  parseFile f = Some parsed → parsed ≠ [] →
  items (onUpload g f s).2 = take 20 (dedupe parsed).
Proof.
  intros Hp Hne. destruct (storeThrows f) eqn:Hq.
  - by destruct (upload_refused g f s parsed Hp Hne Hq) as (_ & -> & _).
  - by destruct (upload_accepted g f s parsed Hp Hne Hq) as (_ & -> & _).
Qed.

Lemma parseFile_txt txt j q :
  parseFile (File (str "txt") txt j q) = Some (parseTXT txt).
Proof. done. Qed.

(** C8.  [dedupe] goes through the items in order: an item whose key
    [normalize(word)] is empty, or is the key of an earlier item, is
    dropped; any other item is kept, after the items kept before it, with
    its word upper-cased and its hint as it is.  An accepted upload installs
    the first 20 items of the deduplicated list.  In particular a text file
    of 25 valid entries with different keys installs exactly 20 items, the
    first 20 entries in their order. *)
Theorem dedupe_and_cap :
  dedupe [] = []
  ∧ (∀ arr it,
       dedupe (arr ++ [it]) =
       if bool_decide (key it = [] ∨ key it ∈ key <$> arr) then dedupe arr
       else dedupe arr ++ [display it])
  ∧ (∀ g f s parsed,
       parseFile f = Some parsed → parsed ≠ [] →
       items (onUpload g f s).2 = take 20 (dedupe parsed)
       ∧ length (items (onUpload g f s).2) ≤ 20)
  ∧ (∀ g j q s entries,
       length entries = 25 →
       Forall (λ it, validEntry it) entries →
       NoDup (key <$> entries) →
       let s' := (onUpload g (File (str "txt") (textOf entries) j q) s).2 in
       items s' = take 20 (display <$> entries) ∧ length (items s') = 20).
Proof.
  split; [done|]. split; [apply dedupe_snoc|]. split.
  - intros g f s parsed Hp Hne.
    rewrite (upload_installed g f s parsed Hp Hne).
    split; [done|]. rewrite length_take. lia.
  - intros g j q s entries Hlen Hvalid Hnd s'. subst s'.
    assert (Hne : entries ≠ []) by (by destruct entries).
    rewrite (upload_installed g (File (str "txt") (textOf entries) j q) s entries);
      [|by rewrite parseFile_txt, parseTXT_textOf|done].
    rewrite dedupe_distinct; [|eapply Forall_impl; [exact Hvalid|]|done].
    + split; [done|]. rewrite length_take, length_fmap. lia.
    + intros it Hit. unfold validEntry in Hit.
      apply andb_True in Hit as [[_ Hk]%andb_True _].
      apply negb_True in Hk. by rewrite bool_decide_spec in Hk.
Qed.

Lemma dedupe_and_cap_sample :
  let s' := (onUpload draws (File (str "txt") (textOf sampleEntries) None false)
               dragonStart).2 in
  items s' = take 20 (display <$> sampleEntries) ∧ length (items s') = 20.
Proof.
  apply (proj2 (proj2 (proj2 dedupe_and_cap))).
  - reflexivity.
  - repeat (constructor; [vm_compute; exact I|]). constructor.
  - apply (bool_decide_unpack (NoDup (key <$> sampleEntries))).
    vm_compute. exact I.
Defined.

(** ** Code units *)

Lemma between_spec lo hi c : between lo hi c = true ↔ (lo ≤ c ≤ hi)%N.
Proof.
  unfold between. rewrite andb_true_iff, !N.leb_le. done.
Qed.

Lemma between_reflect lo hi c : reflect (lo ≤ c ≤ hi)%N (between lo hi c).
Proof. apply iff_reflect. symmetry. apply between_spec. Qed.

Ltac case_between :=
  repeat match goal with
    | |- context [between ?lo ?hi ?c] => destruct (between_reflect lo hi c)
    | |- context [(?c =? ?d)%N] => destruct (N.eqb_spec c d)
    end.

Lemma isSpace_range c :
  isSpace c →
  (9 ≤ c ≤ 13 ∨ c = 32 ∨ c = 160 ∨ c = 0x1680 ∨ 0x2000 ≤ c ≤ 0x200A
   ∨ c = 0x2028 ∨ c = 0x2029 ∨ c = 0x202F ∨ c = 0x205F ∨ c = 0x3000
   ∨ c = 0xFEFF)%N.
Proof.
  unfold isSpace. rewrite !orb_True, !Is_true_true, !between_spec, !N.eqb_eq.
  tauto.
Qed.

Lemma isPunct_range c : isPunct c → (33 ≤ c ≤ 63 ∨ c = 95 ∨ c = 96 ∨ c = 0xAB ∨ c = 0xBB)%N.
Proof.
  unfold isPunct. intros H%bool_decide_unpack.
  rewrite !elem_of_cons, elem_of_nil in H. lia.
Qed.

Lemma cased_not_space c : cased c → isSpace c = false.
Proof.
  intros H. destruct (isSpace c) eqn:E; [|done].
  apply Is_true_true, isSpace_range in E. unfold cased in H. lia.
Qed.

Lemma cased_not_punct c : cased c → isPunct c = false.
Proof.
  intros H. destruct (isPunct c) eqn:E; [|done].
  apply Is_true_true, isPunct_range in E. unfold cased in H. lia.
Qed.

Lemma lowerUnit_spec c :
  (lowerUnit c = c ∨ cased c ∧ cased (lowerUnit c))
  ∧ ¬ (65 ≤ lowerUnit c ≤ 90 ∨ 0x400 ≤ lowerUnit c ≤ 0x42F
       ∨ lowerUnit c = 0x1E9E)%N.
Proof. unfold lowerUnit, cased. case_between; lia. Qed.

Lemma upperUnit_spec c :
  (upperUnit c = c ∨ cased c ∧ cased (upperUnit c))
  ∧ lowerUnit (upperUnit c) = lowerUnit c.
Proof. unfold upperUnit, lowerUnit, cased. case_between; lia. Qed.

Lemma lowerUnit_idemp c : lowerUnit (lowerUnit c) = lowerUnit c.
Proof.
  destruct (lowerUnit_spec c) as [_ H]. revert H.
  generalize (lowerUnit c). intros x Hx. unfold lowerUnit. case_between; lia.
Qed.

Lemma isSpace_lowerUnit c : isSpace (lowerUnit c) = isSpace c.
Proof.
  destruct (lowerUnit_spec c) as [[->|[H1 H2]] _]; [done|].
  by rewrite !cased_not_space.
Qed.

Lemma isPunct_lowerUnit c : isPunct (lowerUnit c) = isPunct c.
Proof.
  destruct (lowerUnit_spec c) as [[->|[H1 H2]] _]; [done|].
  by rewrite !cased_not_punct.
Qed.

Lemma isSpace_upperUnit c : isSpace (upperUnit c) = isSpace c.
Proof.
  destruct (upperUnit_spec c) as [[->|[H1 H2]] _]; [done|].
  by rewrite !cased_not_space.
Qed.

Lemma isPunct_upperUnit c : isPunct (upperUnit c) = isPunct c.
Proof.
  destruct (upperUnit_spec c) as [[->|[H1 H2]] _]; [done|].
  by rewrite !cased_not_punct.
Qed.

(** ** The normalizer *)

Lemma filter_fmap_commute {A} (P : A → Prop) `{∀ x, Decision (P x)}
    (f : A → A) (l : list A) :
  (∀ x, P (f x) ↔ P x) → filter P (f <$> l) = f <$> filter P l.
Proof.
  intros Hf. induction l as [|x l IH]; [done|].
  rewrite fmap_cons. destruct (decide (P x)) as [Hx|Hx].
  - rewrite !filter_cons_True, fmap_cons, IH; [done|done|by apply Hf].
  - rewrite !filter_cons_False, IH; [done|done|by rewrite Hf].
Qed.

Lemma normalizeWord_clean w :
  Forall (λ c, ¬ isSpace c ∧ ¬ isPunct c) (normalizeWord w).
Proof.
  unfold normalizeWord, toLowerCase. apply Forall_fmap, Forall_forall.
  intros c [Hp [Hs _]%list_elem_of_filter]%list_elem_of_filter. simpl.
  by rewrite isSpace_lowerUnit, isPunct_lowerUnit.
Qed.

Lemma normalizeWord_of_clean w :
  Forall (λ c, ¬ isSpace c ∧ ¬ isPunct c) w → normalizeWord w = toLowerCase w.
Proof.
  intros H. unfold normalizeWord.
  rewrite (filter_all (λ c, ¬ isSpace c)), (filter_all (λ c, ¬ isPunct c)); [done|..];
    (eapply Forall_impl; [exact H|]); by intros c [? ?].
Qed.

Lemma toLowerCase_idemp w : toLowerCase (toLowerCase w) = toLowerCase w.
Proof.
  unfold toLowerCase. rewrite <-list_fmap_compose. apply list_fmap_ext.
  intros _ c _. apply lowerUnit_idemp.
Qed.

Lemma normalizeWord_lower w : toLowerCase (normalizeWord w) = normalizeWord w.
Proof. unfold normalizeWord. apply toLowerCase_idemp. Qed.

Lemma normalizeWord_idemp w : normalizeWord (normalizeWord w) = normalizeWord w.
Proof.
  rewrite normalizeWord_of_clean by apply normalizeWord_clean.
  apply normalizeWord_lower.
Qed.

Lemma normalizeWord_upperUnits w :
  normalizeWord (upperUnit <$> w) = normalizeWord w.
Proof.
  unfold normalizeWord, toLowerCase.
  rewrite !filter_fmap_commute.
  - rewrite <-list_fmap_compose. apply list_fmap_ext.
    intros _ c _. apply upperUnit_spec.
  - intros c. by rewrite isPunct_upperUnit.
  - intros c. by rewrite isSpace_upperUnit.
Qed.

Lemma plain_not_sharp_s c : plain c → c ≠ 0xDF%N.
Proof.
  unfold plain. rewrite orb_True, !Is_true_true, N.ltb_lt, between_spec. lia.
Qed.

Lemma toUpperCase_plain w :
  Forall (λ c, plain c) w → toUpperCase w = upperUnit <$> w.
Proof.
  unfold toUpperCase. induction 1 as [|c w Hc _ IH]; [done|].
  rewrite bind_cons, fmap_cons, IH. unfold upperUnits.
  by rewrite (proj2 (N.eqb_neq c 0xDF) (plain_not_sharp_s c Hc)).
Qed.

Lemma normalizeWord_toUpperCase w :
  Forall (λ c, plain c) w → normalizeWord (toUpperCase w) = normalizeWord w.
Proof.
  intros H. rewrite toUpperCase_plain by done. apply normalizeWord_upperUnits.
Qed.

Lemma normalizeWord_app v w :
  normalizeWord (v ++ w) = normalizeWord v ++ normalizeWord w.
Proof.
  unfold normalizeWord, toLowerCase. by rewrite !filter_app, fmap_app.
Qed.

(** ** Slots and the candidate of [check] *)

Lemma length_letterSlots_gen (h : nat → bool) (g : nat → nat) (tgt : jsstring) :
  length (filter (λ x : nat * Slot.t, Slot.isLetter x.2)
            (imap (λ idx x, (g idx, x))
               (imap (λ k c, Slot.mk c (isLetter c) (h k)) tgt)))
  = length (lettersOf tgt).
Proof.
  unfold lettersOf. revert h g.
  induction tgt as [|c tgt IH]; intros h g; [done|].
  rewrite !imap_cons.
  destruct (isLetter c) eqn:E.
  - rewrite filter_cons_True by done.
    rewrite (filter_cons_True _ c) by (by rewrite E).
    cbn [length]. f_equal.
    apply (IH (h ∘ S) (g ∘ S)).
  - rewrite filter_cons_False by (simpl; tauto).
    rewrite (filter_cons_False _ c) by (cbv beta; rewrite E; simpl; tauto).
    apply (IH (h ∘ S) (g ∘ S)).
Qed.

Lemma length_letterSlots tgt rev :
  length (letterSlots (displayWordOf tgt rev)) = length (lettersOf tgt).
Proof.
  apply (length_letterSlots_gen (λ k, bool_decide (k < rev)) (λ idx, idx)).
Qed.

Lemma letterSlotCount_letters s :
  letterSlotCount s = length (lettersOf (target s)).
Proof. apply length_letterSlots. Qed.

Lemma displayWordOf_0 tgt :
  displayWordOf tgt 0 = (λ c, Slot.mk c (isLetter c) false) <$> tgt.
Proof.
  unfold displayWordOf. rewrite <-imap_const. apply imap_ext.
  intros k c _. by rewrite bool_decide_false by lia.
Qed.

Lemma normalizeWord_cons c w :
  normalizeWord (c :: w) = normalizeWord [c] ++ normalizeWord w.
Proof. by rewrite <-normalizeWord_app. Qed.

Lemma rebuildFrom_spelled letters pos tgt :
  Forall2 (λ t c, normalizeWord t = normalizeWord [c])
    (drop pos letters) (lettersOf tgt) →
  normalizeWord
    (rebuildFrom letters pos ((λ c, Slot.mk c (isLetter c) false) <$> tgt))
  = normalizeWord tgt.
Proof.
  revert pos. induction tgt as [|c tgt IH]; intros pos H; [done|].
  rewrite fmap_cons. cbn [rebuildFrom Slot.isLetter Slot.revealed Slot.char].
  unfold lettersOf in H. destruct (isLetter c) eqn:E; cbn [negb].
  - rewrite filter_cons_True in H by (by rewrite E).
    apply Forall2_cons_inv_r in H as (t & rest & Ht & Hrest & Hdrop).
    assert (Hpos : letters !! pos = Some t).
    { rewrite <-(Nat.add_0_r pos), <-lookup_drop. by rewrite Hdrop. }
    assert (HS : drop (S pos) letters = rest).
    { by rewrite <-(Nat.add_1_r pos), <-drop_drop, Hdrop. }
    rewrite Hpos. cbn [default]. unfold id.
    rewrite normalizeWord_app, Ht, (normalizeWord_cons c tgt). f_equal.
    apply IH. rewrite HS. exact Hrest.
  - rewrite filter_cons_False in H by (cbv beta; rewrite E; simpl; tauto).
    rewrite normalizeWord_cons, (normalizeWord_cons c tgt). f_equal.
    apply IH. exact H.
Qed.

Lemma verdict_spelled tgt pk :
  Forall2 (λ p c, normalizeWord (ch p) = normalizeWord [c]) pk (lettersOf tgt) →
  verdict tgt pk 0 = Correct.
Proof.
  intros H. unfold verdict, rebuildWithPunctuation.
  rewrite displayWordOf_0, rebuildFrom_spelled, bool_decide_true; [done|done|].
  rewrite drop_0. by apply Forall2_fmap_l.
Qed.

(** ** What the handlers leave alone *)

Lemma pick_frame k s :
  items (pick k s) = items s ∧ index (pick k s) = index s
  ∧ revealed (pick k s) = revealed s
  ∧ sessionStorage (pick k s) = sessionStorage s.
Proof.
  unfold pick, onTileClick. destruct (shuffled s !! k); [|done].
  by repeat case_bool_decide.
Qed.

Lemma removeLast_frame s :
  items (removeLast s) = items s ∧ index (removeLast s) = index s
  ∧ revealed (removeLast s) = revealed s
  ∧ sessionStorage (removeLast s) = sessionStorage s
  ∧ length (picked (removeLast s)) ≤ length (picked s).
Proof.
  unfold removeLast. destruct (last (picked s)); [|done].
  case_bool_decide; [done|]. simpl. rewrite length_take. repeat split; lia.
Qed.

Lemma step_frame o s :
  items (step o s) = items s ∧ index (step o s) = index s
  ∧ sessionStorage (step o s) = sessionStorage s.
Proof.
  destruct o as [k| | |]; simpl.
  - by destruct (pick_frame k s) as (? & ? & _ & ?).
  - by destruct (removeLast_frame s) as (? & ? & _ & ? & _).
  - unfold hint. by case_bool_decide.
  - unfold check. by destruct (current s).
Qed.

Lemma target_ext s s' :
  items s' = items s → index s' = index s → target s' = target s.
Proof. intros Hi Hx. unfold target, current. by rewrite Hi, Hx. Qed.

Lemma letterSlotCount_ext s s' :
  items s' = items s → index s' = index s →
  letterSlotCount s' = letterSlotCount s.
Proof.
  intros Hi Hx. rewrite !letterSlotCount_letters. by rewrite (target_ext s s').
Qed.

Lemma letterSlotCount_step o s : letterSlotCount (step o s) = letterSlotCount s.
Proof.
  destruct (step_frame o s) as (? & ? & _). by apply letterSlotCount_ext.
Qed.

Lemma revealed_step o s : revealed s ≤ revealed (step o s) ≤ revealed s + 1.
Proof.
  destruct o as [k| | |]; simpl.
  - destruct (pick_frame k s) as (_ & _ & -> & _). lia.
  - destruct (removeLast_frame s) as (_ & _ & -> & _). lia.
  - unfold hint. case_bool_decide; simpl; lia.
  - destruct (check_fields s) as (_ & _ & _ & _ & ->). lia.
Qed.

Lemma bounds_step o s :
  revealed s ≤ letterSlotCount s ∧ length (picked s) ≤ letterSlotCount s →
  revealed (step o s) ≤ letterSlotCount (step o s)
  ∧ length (picked (step o s)) ≤ letterSlotCount (step o s).
Proof.
  intros [Hr Hp]. rewrite letterSlotCount_step.
  destruct o as [k| | |]; simpl.
  - destruct (decide (status s = Idle)) as [Hst|Hst]; [|by rewrite pick_locked].
    destruct (decide (validPick k s)) as [Hv|Hv]; [|by rewrite pick_invalid].
    destruct (pick_valid k s Hst Hv) as (c & _ & _ & ->). simpl.
    unfold validPick in Hv. apply andb_True in Hv as [_ Hv].
    apply bool_decide_unpack in Hv. rewrite length_app. simpl. lia.
  - destruct (removeLast_frame s) as (_ & _ & -> & _ & ?). lia.
  - unfold hint. case_bool_decide as Hfull; [done|].
    fold (letterSlotCount s) in Hfull. cbn [revealed picked]. lia.
  - destruct (check_fields s) as (-> & _ & _ & _ & ->). done.
Qed.

Lemma bounds_attempt bank s :
  attempt bank s →
  revealed s ≤ letterSlotCount s ∧ length (picked s) ≤ letterSlotCount s.
Proof.
  induction 1 as [g s Hcur|bank o s _ IH|bank g s _ IH Hpk|bank g s _ _].
  - destruct Hcur as [it Hit]. unfold initPuzzle. rewrite Hit.
    destruct (makeLetterBank g (normalizedTarget s)). simpl. lia.
  - by apply bounds_step.
  - done.
  - simpl. lia.
Qed.

(** ** The word list, the index and the session store *)

Lemma onUpload_cases g f s :
  storeThrows f = false →
  (onUpload g f s).2 = s
  ∨ ∃ unique,
      length unique ≤ 20
      ∧ (onUpload g f s).2 =
          rerender g s
            (State unique 0 (picked s) (shuffled s) (status s) (revealed s)
               (Some unique)).
Proof.
  intros Hq. unfold onUpload. rewrite Hq.
  destruct (parseFile f) as [parsed|]; [|by left].
  case_bool_decide; [by left|]. right. eexists. split; [|done].
  rewrite length_take. lia.
Qed.

Lemma handle_frame e s :
  storeAccepts e →
  (items (handle e s) = items s ∧ sessionStorage (handle e s) = sessionStorage s
   ∧ (index (handle e s) = index s
      ∨ index (handle e s) = 0
      ∨ index (handle e s) = index s + 1 ∧ index s + 1 < length (items s)))
  ∨ (∃ l, items (handle e s) = l ∧ sessionStorage (handle e s) = Some l
          ∧ index (handle e s) = 0)
  ∨ (items (handle e s) = defaultSet ∧ sessionStorage (handle e s) = None
     ∧ index (handle e s) = 0).
Proof.
  destruct e as [o|g|g|g|g f|g]; simpl; intros Hq.
  - left. destruct (step_frame o s) as (-> & -> & ->). auto.
  - left. auto.
  - left. auto.
  - left. unfold next.
    destruct (rerender_fields g s
      (State (items s)
         (if bool_decide (index s + 1 < length (items s)) then index s + 1 else 0)
         (picked s) (shuffled s) (status s) (revealed s) (sessionStorage s)))
      as (-> & -> & ->). simpl.
    split; [done|]. split; [done|]. case_bool_decide; auto.
  - destruct (onUpload_cases g f s Hq) as [->|(unique & _ & ->)]; [left; auto|].
    right. left. exists unique.
    by destruct (rerender_fields g s
      (State unique 0 (picked s) (shuffled s) (status s) (revealed s)
         (Some unique))) as (-> & -> & ->).
  - right. right. unfold clearSet.
    by destruct (rerender_fields g s
      (State defaultSet 0 (picked s) (shuffled s) (status s) (revealed s) None))
      as (-> & -> & ->).
Qed.

Lemma play_snoc es e s : play (es ++ [e]) s = handle e (play es s).
Proof. unfold play. by rewrite foldl_app. Qed.

Lemma reachableStoring_ind (P : state → Prop) :
  (∀ g store, P (mount g store)) →
  (∀ e s, storeAccepts e → reachableStoring s → P s → P (handle e s)) →
  ∀ s, reachableStoring s → P s.
Proof.
  intros Hmount Hstep s (g & store & es & Hes & ->).
  induction es as [|e es IH] using rev_ind; [apply Hmount|].
  apply Forall_app in Hes as [Hes He]. rewrite Forall_singleton in He.
  rewrite play_snoc. apply Hstep; [done|by exists g, store, es|by apply IH].
Qed.

Lemma mount_fields g store :
  items (mount g store) = loadItems store ∧ index (mount g store) = 0
  ∧ sessionStorage (mount g store) = store.
Proof. unfold mount. apply initPuzzle_fields. Qed.

Lemma initPuzzle_fresh g s :
  is_Some (current s) →
  picked (initPuzzle g s) = [] ∧ status (initPuzzle g s) = Idle
  ∧ revealed (initPuzzle g s) = 0
  ∧ length (shuffled (initPuzzle g s))
    = bankSize (length (toUpperCase (normalizedTarget s)))
  ∧ Forall (λ c, c ≠ []) (shuffled (initPuzzle g s))
  ∧ (length (toUpperCase (normalizedTarget s)) ≤ 16 →
     split1 (toUpperCase (normalizedTarget s)) ⊆+ shuffled (initPuzzle g s)).
Proof.
  intros [it Hit]. unfold initPuzzle. rewrite Hit.
  pose proof (makeLetterBank_present g (normalizedTarget s)) as Hpres.
  pose proof (length_makeLetterBank g (normalizedTarget s)) as Hlen.
  pose proof (makeLetterBank_seed g (normalizedTarget s)) as Hseed.
  destruct (makeLetterBank g (normalizedTarget s)) as [bank g1]. simpl in *.
  split; [done|]. split; [done|]. split; [done|].
  split; [by rewrite length_shuffle|].
  split; [by rewrite shuffle_Permutation|].
  intros Hle. rewrite shuffle_Permutation. by apply Hseed.
Qed.

Lemma state_eta s :
  State (items s) (index s) (picked s) (shuffled s) (status s) (revealed s)
    (sessionStorage s) = s.
Proof. by destruct s. Qed.

Lemma next_single g s :
  length (items s) ≤ 1 → index s = 0 → next g s = s.
Proof.
  intros Hlen Hidx. unfold next.
  rewrite (bool_decide_false (index s + 1 < _)) by lia.
  assert (State (items s) 0 (picked s) (shuffled s) (status s) (revealed s)
            (sessionStorage s) = s) as ->
    by (rewrite <-Hidx; apply state_eta).
  unfold rerender. by rewrite bool_decide_true.
Qed.

Lemma next_moves g s :
  2 ≤ length (items s) → index s < length (items s) →
  let s' := next g s in
  items s' = items s
  ∧ index s' = (index s + 1) `mod` length (items s)
  ∧ is_Some (current s')
  ∧ picked s' = [] ∧ status s' = Idle ∧ revealed s' = 0
  ∧ length (shuffled s') = bankSize (length (toUpperCase (normalizedTarget s')))
  ∧ Forall (λ c, c ≠ []) (shuffled s').
Proof.
  intros Hlen Hidx s'. subst s'. unfold next.
  set (j := if bool_decide (index s + 1 < length (items s)) then index s + 1 else 0).
  assert (Hj : j = (index s + 1) `mod` length (items s) ∧ j ≠ index s
               ∧ j < length (items s)).
  { subst j. case_bool_decide.
    - rewrite Nat.mod_small by lia. lia.
    - replace (index s + 1) with (length (items s)) by lia.
      rewrite Nat.Div0.mod_same. lia. }
  destruct Hj as (Hmod & Hne & Hlt).
  set (new := State (items s) j (picked s) (shuffled s) (status s) (revealed s)
                (sessionStorage s)).
  assert (Hcur : is_Some (current new)) by (by apply lookup_lt_is_Some).
  unfold rerender. rewrite bool_decide_false by (simpl; intros [? _]; lia).
  destruct (initPuzzle_fields g new) as (Hi & Hx & _).
  destruct (initPuzzle_fresh g new Hcur) as (H1 & H2 & H3 & H4 & H5 & _).
  assert (Hnt : normalizedTarget (initPuzzle g new) = normalizedTarget new).
  { unfold normalizedTarget. by rewrite (target_ext new). }
  split; [by rewrite Hi|]. split; [by rewrite Hx|].
  split; [unfold current; by rewrite Hi, Hx|].
  by rewrite Hnt.
Qed.

(** ** A fresh puzzle can be solved *)

Lemma submseteq_indices {A} (l b : list A) :
  l ⊆+ b → ∃ ks, NoDup ks ∧ Forall2 (λ k x, b !! k = Some x) ks l.
Proof.
  intros [rest Hperm]%submseteq_Permutation. symmetry in Hperm.
  apply Permutation_inj in Hperm as (_ & f & Hf & Hlook).
  exists (f <$> seq 0 (length l)). split.
  - apply NoDup_fmap_2; [done|apply NoDup_seq].
  - apply Forall2_same_length_lookup_2.
    + by rewrite length_fmap, length_seq.
    + intros j k x Hk Hx. rewrite list_lookup_fmap in Hk.
      pose proof (lookup_lt_Some _ _ _ Hx) as Hj.
      rewrite lookup_seq_lt in Hk by done. simpl in Hk. injection Hk as <-.
      rewrite <-Hlook, lookup_app_l by done. done.
Qed.

Lemma isLetter_cased c : isLetter c → cased c.
Proof.
  unfold isLetter, cased.
  rewrite !orb_True, !Is_true_true, !between_spec, !N.eqb_eq. lia.
Qed.

Lemma normalizeWord_toLowerCase w : normalizeWord (toLowerCase w) = normalizeWord w.
Proof.
  unfold normalizeWord, toLowerCase.
  rewrite !filter_fmap_commute.
  - rewrite <-list_fmap_compose. apply list_fmap_ext.
    intros _ c _. apply lowerUnit_idemp.
  - intros c. by rewrite isPunct_lowerUnit.
  - intros c. by rewrite isSpace_lowerUnit.
Qed.

Lemma normalizeWord_tileOf c : normalizeWord (tileOf c) = normalizeWord [c].
Proof.
  unfold tileOf.
  change [upperUnit (lowerUnit c)] with (upperUnit <$> toLowerCase [c]).
  by rewrite normalizeWord_upperUnits, normalizeWord_toLowerCase.
Qed.

Lemma toUpperCase_app v w : toUpperCase (v ++ w) = toUpperCase v ++ toUpperCase w.
Proof. unfold toUpperCase. apply bind_app. Qed.

Lemma split1_app v w : split1 (v ++ w) = split1 v ++ split1 w.
Proof. unfold split1. apply fmap_app. Qed.

(** The seed tile of a letter of the target: the letter in upper case. *)
Lemma seed_of_letter c :
  isLetter c → split1 (toUpperCase (normalizeWord [c])) = [tileOf c].
Proof.
  intros Hc. pose proof (isLetter_cased c Hc) as Hcased.
  unfold normalizeWord.
  rewrite (filter_all (λ c, ¬ isSpace c)), (filter_all (λ c, ¬ isPunct c));
    try (apply Forall_singleton; cbv beta;
         rewrite ?(cased_not_space c), ?(cased_not_punct c) by done;
         simpl; tauto).
  unfold toLowerCase, toUpperCase, tileOf.
  rewrite fmap_cons, bind_cons. cbn [fmap list_fmap mbind list_bind].
  rewrite app_nil_r. unfold upperUnits.
  assert (Hne : lowerUnit c ≠ 0xDF%N).
  { revert Hc. unfold isLetter, lowerUnit.
    rewrite !orb_True, !Is_true_true, !between_spec, !N.eqb_eq.
    case_between; lia. }
  by rewrite (proj2 (N.eqb_neq _ _) Hne).
Qed.

Lemma tiles_in_seed tgt :
  tileOf <$> lettersOf tgt ⊆+ split1 (toUpperCase (normalizeWord tgt)).
Proof.
  apply sublist_submseteq. unfold lettersOf.
  induction tgt as [|c tgt IH]; [apply sublist_nil_l|].
  change (c :: tgt) with ([c] ++ tgt).
  rewrite normalizeWord_app, toUpperCase_app, split1_app.
  destruct (isLetter c) eqn:E.
  - rewrite filter_app, fmap_app. apply sublist_app; [|exact IH].
    rewrite filter_cons_True by (by rewrite E).
    rewrite seed_of_letter by (by rewrite E). done.
  - rewrite filter_app, filter_cons_False by (rewrite E; simpl; tauto).
    rewrite filter_nil, app_nil_l. by apply sublist_inserts_l.
Qed.

Lemma solve_fresh g s :
  is_Some (current s) → length (toUpperCase (normalizedTarget s)) ≤ 16 →
  ∃ ks, length ks = letterSlotCount s
        ∧ status (check (run (Pick <$> ks) (initPuzzle g s))) = Correct.
Proof.
  intros Hcur Hlen.
  destruct (initPuzzle_fresh g s Hcur) as (Hpk & Hst & Hrev & _ & Hpres & Hseed).
  destruct (initPuzzle_fields g s) as (Hi & Hx & _).
  set (s0 := initPuzzle g s) in *.
  assert (Htgt : target s0 = target s) by (by apply target_ext).
  assert (Hcount : letterSlotCount s0 = length (lettersOf (target s))).
  { by rewrite letterSlotCount_letters, Htgt. }
  assert (Htiles : tileOf <$> lettersOf (target s) ⊆+ shuffled s0).
  { etrans; [apply tiles_in_seed|]. by apply Hseed. }
  apply submseteq_indices in Htiles as (ks & Hnd & Hks).
  pose proof (Forall2_length _ _ _ Hks) as Hlks. rewrite length_fmap in Hlks.
  exists ks. split; [by rewrite letterSlotCount_letters|].
  rewrite (picks_effect ks (tileOf <$> lettersOf (target s))); [|done| |done|].
  - assert (Hcur0 : is_Some (current s0)) by (unfold current; by rewrite Hi, Hx).
    destruct Hcur0 as [it Hit].
    rewrite (check_current (State _ _ _ _ _ _ _) it Hit).
    cbn [status picked revealed].
    change (target (State _ _ _ _ _ _ _)) with (target s0).
    rewrite Hpk, Hrev, Htgt, app_nil_l. apply verdict_spelled.
    apply Forall2_same_length_lookup_2.
    + by rewrite length_zip_with, length_fmap, Hlks, Nat.min_id.
    + intros j p c Hp Hc. apply lookup_zip_with_Some in Hp as (t & k & -> & Ht & _).
      rewrite list_lookup_fmap, Hc in Ht. injection Ht as <-.
      apply normalizeWord_tileOf.
  - eapply Forall2_impl; [exact Hks|]. intros k x Hk. split; [done|].
    rewrite Forall_lookup in Hpres. exact (Hpres k x Hk).
  - rewrite Hpk, Hrev, Hcount, Hlks. simpl. lia.
Qed.

(** ** No letter is made up *)

Lemma filter_insert_submseteq (l : list jsstring) k c :
  c ≠ [] →
  filter (λ c, c ≠ []) (<[k := c]> l) ⊆+ c :: filter (λ c, c ≠ []) l.
Proof.
  intros Hc. destruct (l !! k) as [x|] eqn:E.
  - rewrite insert_take_drop by (by eapply lookup_lt_Some).
    rewrite <-(take_drop_middle l k x) at 3 by done.
    rewrite !filter_app, filter_cons_True by done.
    rewrite <-Permutation_middle. apply submseteq_skip, submseteq_app; [done|].
    rewrite filter_cons. case_decide; [by apply submseteq_cons|done].
  - rewrite list_insert_ge by (by apply lookup_ge_None). by apply submseteq_cons.
Qed.

Lemma lettersInPlay_pick k s : lettersInPlay (pick k s) ≡ₚ lettersInPlay s.
Proof.
  destruct (decide (status s = Idle)) as [Hst|Hst]; [|by rewrite pick_locked].
  destruct (decide (validPick k s)) as [Hv|Hv]; [|by rewrite pick_invalid].
  destruct (pick_valid k s Hst Hv) as (c & Hk & Hc & ->).
  unfold lettersInPlay. simpl. rewrite fmap_app. simpl.
  rewrite (filter_insert_present (shuffled s) k c) by done.
  by rewrite (comm (++) (ch <$> picked s)), (assoc (++)), <-Permutation_cons_append.
Qed.

Lemma picked_pick_present k s :
  Forall (λ p, ch p ≠ []) (picked s) → Forall (λ p, ch p ≠ []) (picked (pick k s)).
Proof.
  intros H.
  destruct (decide (status s = Idle)) as [Hst|Hst]; [|by rewrite pick_locked].
  destruct (decide (validPick k s)) as [Hv|Hv]; [|by rewrite pick_invalid].
  destruct (pick_valid k s Hst Hv) as (c & Hk & Hc & ->). simpl.
  apply Forall_app. split; [done|]. by constructor.
Qed.

Lemma lettersInPlay_removeLast s :
  Forall (λ p, ch p ≠ []) (picked s) →
  lettersInPlay (removeLast s) ⊆+ lettersInPlay s
  ∧ Forall (λ p, ch p ≠ []) (picked (removeLast s)).
Proof.
  intros Hch.
  destruct (decide (status s = Idle)) as [Hst|Hst]; [|by rewrite removeLast_locked].
  destruct (last (picked s)) as [[c k]|] eqn:Hlast.
  2: { rewrite removeLast_empty; [done|]. by apply last_None. }
  apply last_Some in Hlast as [pk Hpk].
  rewrite (removeLast_snoc s pk c k Hst Hpk).
  unfold lettersInPlay. rewrite Hpk in Hch |- *. simpl.
  apply Forall_app in Hch as [Hch Hc]. rewrite Forall_singleton in Hc. simpl in Hc.
  split; [|done]. rewrite fmap_app. simpl.
  rewrite (assoc (++)), <-Permutation_cons_append, app_comm_cons.
  apply submseteq_skips_r. by apply filter_insert_submseteq.
Qed.

Lemma lettersInPlay_handle e s :
  onPuzzle e → Forall (λ p, ch p ≠ []) (picked s) →
  lettersInPlay (handle e s) ⊆+ lettersInPlay s
  ∧ Forall (λ p, ch p ≠ []) (picked (handle e s)).
Proof.
  intros He Hch. destruct e as [[k| | |]|g|g|g|g f|g]; try done; simpl.
  - split; [by rewrite lettersInPlay_pick|by apply picked_pick_present].
  - by apply lettersInPlay_removeLast.
  - destruct (hint_fields s) as (_ & Hp & Hs & _).
    unfold lettersInPlay. by rewrite Hp, Hs.
  - destruct (check_fields s) as (Hp & Hs & _).
    unfold lettersInPlay. by rewrite Hp, Hs.
  - unfold lettersInPlay. simpl. by rewrite shuffle_Permutation.
  - unfold lettersInPlay. simpl. split; [|constructor].
    rewrite app_nil_r, shuffle_Permutation, list_filter_filter.
    etrans; [|by apply submseteq_inserts_r].
    apply Permutation_submseteq. erewrite list_filter_iff; [done|]. tauto.
Qed.

Lemma lettersInPlay_play es s :
  Forall onPuzzle es → Forall (λ p, ch p ≠ []) (picked s) →
  lettersInPlay (play es s) ⊆+ lettersInPlay s.
Proof.
  intros Hes Hch.
  cut (lettersInPlay (play es s) ⊆+ lettersInPlay s
       ∧ Forall (λ p, ch p ≠ []) (picked (play es s))); [tauto|].
  induction es as [|e es IH] using rev_ind; [done|].
  apply Forall_app in Hes as [Hes He]. rewrite Forall_singleton in He.
  destruct (IH Hes) as [IH1 IH2]. rewrite play_snoc.
  destruct (lettersInPlay_handle e (play es s) He IH2) as [H1 H2].
  split; [by etrans|done].
Qed.

(** ** Hints on a target made of letters *)

Lemma rebuildFrom_revealed letters pos o k tgt :
  Forall (λ c, isLetter c) tgt →
  Forall2 (λ t c, normalizeWord t = normalizeWord [c])
    (drop pos letters) (drop (k - o) tgt) →
  normalizeWord
    (rebuildFrom letters pos
       (imap (λ j c, Slot.mk c (isLetter c) (bool_decide (o + j < k))) tgt))
  = normalizeWord tgt.
Proof.
  intros Hall. revert pos o.
  induction Hall as [|c tgt Hc Hall IH]; intros pos o H; [done|].
  rewrite imap_cons. cbn [rebuildFrom Slot.isLetter Slot.revealed Slot.char].
  apply Is_true_true in Hc. rewrite Hc. cbn [negb].
  rewrite (normalizeWord_cons c tgt).
  assert (Hext : imap ((λ j c0, Slot.mk c0 (isLetter c0) (bool_decide (o + j < k))) ∘ S) tgt
                 = imap (λ j c0, Slot.mk c0 (isLetter c0) (bool_decide (S o + j < k))) tgt).
  { apply imap_ext. intros j x _. simpl. do 2 f_equal.
    apply bool_decide_ext. lia. }
  rewrite Hext. case_bool_decide as Hlt.
  - rewrite normalizeWord_cons. f_equal. apply IH.
    replace (k - o) with (S (k - S o)) in H by lia. exact H.
  - replace (k - o) with 0 in H by lia. rewrite drop_0 in H.
    apply Forall2_cons_inv_r in H as (t & rest & Ht & Hrest & Hdrop).
    assert (Hpos : letters !! pos = Some t).
    { rewrite <-(Nat.add_0_r pos), <-lookup_drop. by rewrite Hdrop. }
    assert (HS : drop (S pos) letters = rest).
    { by rewrite <-(Nat.add_1_r pos), <-drop_drop, Hdrop. }
    rewrite Hpos. cbn [default]. unfold id.
    rewrite normalizeWord_app, Ht. f_equal.
    apply IH. replace (k - S o) with 0 by lia. rewrite drop_0, HS. exact Hrest.
Qed.

Lemma verdict_revealed tgt pk k :
  Forall (λ c, isLetter c) tgt →
  Forall2 (λ p c, normalizeWord (ch p) = normalizeWord [c]) pk (drop k tgt) →
  verdict tgt pk k = Correct.
Proof.
  intros Hall H. unfold verdict, rebuildWithPunctuation, displayWordOf.
  rewrite (rebuildFrom_revealed (ch <$> pk) 0 0 k tgt Hall), bool_decide_true;
    [done|done|].
  rewrite drop_0, Nat.sub_0_r. by apply Forall2_fmap_l.
Qed.

(** ** What the parsers yield *)

Lemma csvRow_word row it : it ∈ csvRow row → Item.word it ≠ [].
Proof.
  unfold csvRow. destruct (row !! 0) as [w|]; [|by intros ?%elem_of_nil].
  case_bool_decide; [by intros ?%elem_of_nil|].
  by intros ->%list_elem_of_singleton.
Qed.

Lemma parseFile_words f parsed :
  parseFile f = Some parsed → Forall (λ it, Item.word it ≠ []) parsed.
Proof.
  unfold parseFile. intros H. apply Forall_forall. intros it Hit.
  assert (Hpos : ∀ x : Item.t, 0 < length (Item.word x) → Item.word x ≠ []).
  { intros x Hx Heq. rewrite Heq in Hx. simpl in Hx. lia. }
  case_bool_decide.
  - destruct (parsedJSON f) as [j|]; [|done]. simpl in H.
    destruct j; try (injection H as <-; by apply elem_of_nil in Hit).
    destruct (mapM jsonItem elems); [|done]. injection H as <-.
    apply list_elem_of_filter in Hit as [Hit _]. by apply Hpos.
  - case_bool_decide; injection H as <-.
    + unfold parseCSV in Hit. apply list_elem_of_bind in Hit as (row & Hit & _).
      by eapply csvRow_word.
    + unfold parseTXT in Hit. apply list_elem_of_filter in Hit as [Hit _].
      by apply Hpos.
Qed.

Lemma key_display it : plainWord it → key (display it) = key it.
Proof. intros H. unfold key, display. simpl. by apply normalizeWord_toUpperCase. Qed.

(** What [dedupe] keeps, told on the items of its input. *)
Lemma dedupe_kept arr :
  ∃ kept,
    kept `sublist_of` arr
    ∧ dedupe arr = display <$> kept
    ∧ NoDup (key <$> kept)
    ∧ Forall (λ it, key it ≠ []) kept
    ∧ ∀ it, it ∈ arr → key it ≠ [] → key it ∈ key <$> kept.
Proof.
  induction arr as [|it arr (kept & Hsub & Heq & Hnd & Hkeys & Hall)] using rev_ind.
  { exists []. split; [done|]. split; [done|]. split; [constructor|].
    split; [constructor|]. by intros it ?%elem_of_nil. }
  rewrite dedupe_snoc. case_bool_decide as Hdrop.
  - exists kept. split; [by apply sublist_inserts_r|]. split; [done|].
    split; [done|]. split; [done|].
    intros x [Hx|Hx%list_elem_of_singleton]%elem_of_app Hk; [by apply Hall|].
    subst x. destruct Hdrop as [?|Hin]; [done|].
    apply list_elem_of_fmap in Hin as (y & Hy & Hin).
    rewrite Hy. apply Hall; [done|]. by rewrite <-Hy.
  - exists (kept ++ [it]). split; [by apply sublist_app|].
    split; [by rewrite fmap_app, Heq|].
    assert (Hnew : key it ∉ key <$> kept).
    { intros Hin. apply Hdrop. right.
      eapply elem_of_submseteq; [exact Hin|].
      by apply sublist_submseteq, fmap_sublist. }
    split; [|split].
    + rewrite fmap_app. apply NoDup_app. split; [done|].
      split; [|apply NoDup_singleton].
      by intros k Hk ->%list_elem_of_singleton.
    + apply Forall_app. split; [done|]. apply Forall_singleton. tauto.
    + intros x [Hx|Hx%list_elem_of_singleton]%elem_of_app Hk;
        rewrite fmap_app; apply elem_of_app.
      * left. by apply Hall.
      * right. subst x. by left.
Qed.

Lemma plainWord_sublist (kept arr : list Item.t) :
  kept `sublist_of` arr → Forall plainWord arr → Forall plainWord kept.
Proof.
  intros Hsub Hall. rewrite Forall_forall in Hall |- *. intros x Hx.
  apply Hall. eapply elem_of_submseteq; [exact Hx|]. by apply sublist_submseteq.
Qed.

Lemma key_display_fmap (kept : list Item.t) :
  Forall plainWord kept → key <$> (display <$> kept) = key <$> kept.
Proof.
  intros H. rewrite <-list_fmap_compose. apply Forall_fmap_ext_1.
  eapply Forall_impl; [exact H|]. intros it Hit. by apply key_display.
Qed.

Lemma dedupe_keys arr :
  Forall plainWord arr →
  NoDup (key <$> dedupe arr) ∧ Forall (λ it, key it ≠ []) (dedupe arr).
Proof.
  intros Hplain.
  destruct (dedupe_kept arr) as (kept & Hsub & -> & Hnd & Hkeys & _).
  pose proof (plainWord_sublist kept arr Hsub Hplain) as Hk.
  split; [by rewrite key_display_fmap|].
  apply Forall_fmap. rewrite Forall_forall in Hk, Hkeys |- *.
  intros it Hit. cbv beta. unfold compose. rewrite key_display by auto. auto.
Qed.

Lemma dedupe_sublist arr : dedupe arr `sublist_of` display <$> arr.
Proof.
  induction arr as [|it arr IH] using rev_ind; [constructor|].
  rewrite dedupe_snoc, fmap_app. case_bool_decide.
  - by apply sublist_inserts_r.
  - by apply sublist_app.
Qed.

(** ** JSON files *)

Lemma parseFile_json txt j q :
  parseFile (File (str "json") txt j q) =
  j' ← j;
  match j' with
  | JArray l =>
      parsed ← mapM jsonItem l;
      Some (filter (λ x, 0 < length (Item.word x)) parsed)
  | _ => Some []
  end.
Proof. done. Qed.

Lemma jsonItem_jsonOfItem it : validObject it → jsonItem (jsonOfItem it) = Some it.
Proof.
  unfold validObject. intros [[Hw1 Hw2]%andb_True Hh]%andb_True.
  destruct it as [w h]. cbn [Item.word Item.hint] in *.
  unfold jsonItem, jsonOfItem, getProp. cbn [Item.word Item.hint mbind option_bind].
  assert (Hw : w ≠ []) by (by apply startsClean_nonempty).
  cbn [ownProperty]. rewrite (bool_decide_true (str "word" = str "word")) by done.
  rewrite (bool_decide_false (str "word" = str "hint")) by (by vm_compute).
  cbn [truthy String_]. rewrite (bool_decide_false (w = [])) by done. cbn [negb].
  rewrite trim_id by done.
  destruct h as [h|]; cbn [ownProperty].
  - rewrite (bool_decide_true (str "hint" = str "hint")) by done.
    cbn [truthy String_]. apply negb_True in Hh.
    rewrite (bool_decide_false (h = [])) by (by rewrite bool_decide_spec in Hh).
    done.
  - done.
Qed.

Lemma mapM_jsonItem_null elems : JNull ∈ elems → mapM jsonItem elems = None.
Proof.
  induction elems as [|x elems IH]; [by intros ?%elem_of_nil|].
  intros [<-|Hin]%elem_of_cons; [done|].
  simpl. rewrite (IH Hin). by destruct (jsonItem x).
Qed.

Lemma parseFile_jsonOf txt q l :
  Forall (λ it, validObject it) l →
  parseFile (File (str "json") txt (Some (jsonOf l)) q) = Some l.
Proof.
  intros H. rewrite parseFile_json. unfold jsonOf. cbn [mbind option_bind].
  rewrite mapM_fmap_Forall_Some.
  - cbn [mbind option_bind]. f_equal. apply filter_all.
    eapply Forall_impl; [exact H|]. intros it Hit.
    unfold validObject in Hit. apply andb_True in Hit as [[Hw _]%andb_True _].
    destruct (Item.word it); [done|simpl; lia].
  - eapply Forall_impl; [exact H|]. intros it Hit. by apply jsonItem_jsonOfItem.
Qed.

(** ** CSV files *)

Lemma cleanCell_spec w :
  cleanCell w →
  startsClean w ∧ startsClean (reverse w)
  ∧ Forall (λ c, isLineBreak c = false) w
  ∧ Forall (λ c, isDelimiter c = false) w.
Proof.
  unfold cleanCell. intros [[H1 H2]%andb_True H3]%andb_True.
  split; [done|]. split; [done|].
  apply forallb_True in H3.
  split; (eapply Forall_impl; [exact H3|]); intros c Hc; cbv beta in Hc;
    apply andb_True in Hc as [Hc1 Hc2].
  - by destruct (isLineBreak c).
  - by destruct (isDelimiter c).
Qed.

Lemma splitOn_cell w :
  Forall (λ c, isDelimiter c = false) w → splitOn isDelimiter w = [w].
Proof.
  intros H. unfold splitOn. rewrite <-(app_nil_r w) at 1.
  by rewrite splitOnFrom_app.
Qed.

Lemma splitOn_cells w h :
  Forall (λ c, isDelimiter c = false) w →
  Forall (λ c, isDelimiter c = false) h →
  splitOn isDelimiter (w ++ 44%N :: h) = [w; h].
Proof.
  intros Hw Hh. unfold splitOn. rewrite splitOnFrom_app, app_nil_l by done.
  rewrite splitOnFrom_sep by done. f_equal.
  rewrite <-(app_nil_r h) at 1. by rewrite splitOnFrom_app.
Qed.

Lemma csvRow_csvLine it :
  validRow it → csvRow (trim <$> splitOn isDelimiter (csvLine it)) = [it].
Proof.
  unfold validRow. intros [Hw Hh]%andb_True.
  apply cleanCell_spec in Hw as (Hw1 & Hw2 & _ & Hw4).
  assert (Hne : Item.word it ≠ []) by (by apply startsClean_nonempty).
  destruct it as [w [h|]]; unfold csvLine; cbn [Item.word Item.hint] in *.
  - apply cleanCell_spec in Hh as (Hh1 & Hh2 & _ & Hh4).
    rewrite splitOn_cells by done. rewrite !fmap_cons, !trim_id by done.
    unfold csvRow. cbn [lookup list_lookup]. by rewrite bool_decide_false.
  - rewrite splitOn_cell by done. rewrite !fmap_cons, !trim_id by done.
    unfold csvRow. cbn [lookup list_lookup]. by rewrite bool_decide_false.
Qed.

Lemma csvLine_clean it :
  validRow it →
  csvLine it ≠ [] ∧ Forall (λ c, isLineBreak c = false) (csvLine it).
Proof.
  unfold validRow. intros [Hw Hh]%andb_True.
  apply cleanCell_spec in Hw as (Hw1 & _ & Hw3 & _).
  destruct it as [w [h|]]; unfold csvLine; cbn [Item.word Item.hint] in *.
  - apply cleanCell_spec in Hh as (_ & _ & Hh3 & _).
    split; [by apply startsClean_nonempty, startsClean_app|].
    apply Forall_app. split; [done|]. by constructor.
  - split; [by apply startsClean_nonempty|done].
Qed.

Lemma bind_csvRow entries :
  Forall (λ it, validRow it) entries →
  ((λ l, trim <$> splitOn isDelimiter l) <$> (csvLine <$> entries)) ≫= csvRow
  = entries.
Proof.
  induction 1 as [|it entries Hit _ IH]; [done|].
  rewrite !fmap_cons, bind_cons, IH, csvRow_csvLine by done. done.
Qed.

Lemma first_cell_csvLine it :
  validRow it →
  (trim <$> splitOn isDelimiter (csvLine it)) !! 0 = Some (Item.word it).
Proof.
  intros Hit. pose proof (csvRow_csvLine it Hit) as H. unfold csvRow in H.
  destruct ((trim <$> splitOn isDelimiter (csvLine it)) !! 0) as [w|]; [|done].
  case_bool_decide; [done|]. by injection H as <-.
Qed.

Lemma parseCSV_lines header entries :
  Forall (λ it, validRow it) entries →
  header ≠ [] → Forall (λ c, isLineBreak c = false) header →
  parseCSV (joinLines (header :: (csvLine <$> entries))) =
  (if bool_decide
        (toLowerCase <$> (trim <$> splitOn isDelimiter header) !! 0
         = Some (str "word"))
   then [] else csvRow (trim <$> splitOn isDelimiter header))
  ++ entries.
Proof.
  intros Hvalid Hne Hbr. unfold parseCSV.
  rewrite splitLines_joinLines.
  2: { constructor; [done|]. apply Forall_fmap.
       eapply Forall_impl; [exact Hvalid|]. intros it Hit. by apply csvLine_clean. }
  rewrite (filter_all nonEmpty).
  2: { constructor; [done|]. apply Forall_fmap.
       eapply Forall_impl; [exact Hvalid|]. intros it Hit. by apply csvLine_clean. }
  rewrite fmap_cons.
  pose proof (bind_csvRow entries Hvalid) as Hrows.
  set (h := trim <$> splitOn isDelimiter header) in *.
  set (R := (λ l, trim <$> splitOn isDelimiter l) <$> (csvLine <$> entries)) in *.
  change ((h :: R) !! 0 ≫= lookup 0) with (h !! 0).
  case_bool_decide.
  - change (drop 1 (h :: R)) with R. by rewrite Hrows.
  - change (drop 0 (h :: R)) with (h :: R). by rewrite bind_cons, Hrows.
Qed.

(** * Further properties of the code *)

(** Decide a closed goal by evaluation. *)
Ltac by_evaluation :=
  match goal with
  | |- ?P => apply (bool_decide_unpack P); vm_compute; exact I
  end.

(** X1.  [normalizeWord] is idempotent. *)
Theorem normalize_idempotent (w : jsstring) :
  normalizeWord (normalizeWord w) = normalizeWord w.
Proof. apply normalizeWord_idemp. Qed.

(** X2.  A normalized word holds no white space and none of the stripped
    punctuation, and lower-casing leaves it as it is.  On a word of ASCII
    and Cyrillic (U+0400..U+045F) code units the case of the input does not
    matter: the word, its upper-cased and its lower-cased form normalize to
    the same string. *)
Theorem normalize_canonical (w : jsstring) :
  Forall (λ c, ¬ isSpace c ∧ ¬ isPunct c) (normalizeWord w)
  ∧ toLowerCase (normalizeWord w) = normalizeWord w
  ∧ (Forall (λ c, plain c) w →
     normalizeWord (toUpperCase w) = normalizeWord w
     ∧ normalizeWord (toLowerCase w) = normalizeWord w).
Proof.
  split; [apply normalizeWord_clean|]. split; [apply normalizeWord_lower|].
  intros H. split; [by apply normalizeWord_toUpperCase|].
  apply normalizeWord_toLowerCase.
Qed.

Lemma normalize_canonical_mother :
  normalizeWord (toUpperCase (str "Mother-in-Law"))
  = normalizeWord (str "Mother-in-Law").
Proof.
  assert (H : Forall (λ c, plain c) (str "Mother-in-Law")) by by_evaluation.
  exact (proj1 (proj2 (proj2 (normalize_canonical (str "Mother-in-Law"))) H)).
Defined.

(** Outside these code units the case of the input can matter: upper-casing
    [ß] gives [SS], which normalizes to [ss]. *)
Lemma normalize_sharp_s :
  normalizeWord (toUpperCase [0xDF%N]) = str "ss"
  ∧ normalizeWord [0xDF%N] = [0xDF%N].
Proof. split; reflexivity. Qed.

(** X3.  [shuffle] returns a permutation of its argument, whatever the
    random draws; so the Shuffle button rearranges the bank (empty positions
    included) and changes nothing else. *)
Theorem shuffle_permutes (g : rng) (s : state) :
  (∀ (A : Type) (a : list A), (shuffle g a).1 ≡ₚ a)
  ∧ shuffled (shuffleBank g s) ≡ₚ shuffled s
  ∧ length (shuffled (shuffleBank g s)) = length (shuffled s)
  ∧ picked (shuffleBank g s) = picked s
  ∧ status (shuffleBank g s) = status s
  ∧ revealed (shuffleBank g s) = revealed s.
Proof.
  split; [intros A a; apply shuffle_Permutation|].
  unfold shuffleBank. simpl.
  split; [apply shuffle_Permutation|]. split; [apply length_shuffle|done].
Qed.

(** X4.  At startup on a non-empty word list the effect initialises the
    first puzzle: nothing picked, nothing revealed, status [Idle], and a
    bank of [clamp(len(U) + 6, 12, 16)] tiles, none of them empty, where [U]
    is the normalized target upper-cased; the bank holds the code units of
    [U] when these are at most 16. *)
Theorem mount_fresh (g : rng) (store : option (list Item.t)) :
  is_Some (loadItems store !! 0) →
  let s := mount g store in
  picked s = [] ∧ status s = Idle ∧ revealed s = 0
  ∧ length (shuffled s) = bankSize (length (toUpperCase (normalizedTarget s)))
  ∧ Forall (λ c, c ≠ []) (shuffled s)
  ∧ (length (toUpperCase (normalizedTarget s)) ≤ 16 →
     split1 (toUpperCase (normalizedTarget s)) ⊆+ shuffled s).
Proof.
  intros Hcur s. subst s. unfold mount.
  set (s0 := State (loadItems store) 0 [] [] Idle 0 store).
  assert (Hnt : normalizedTarget (initPuzzle g s0) = normalizedTarget s0).
  { destruct (initPuzzle_fields g s0) as (Hi & Hx & _).
    unfold normalizedTarget. by rewrite (target_ext s0). }
  rewrite Hnt. by apply initPuzzle_fresh.
Qed.

Lemma mount_fresh_default :
  let s := mount draws None in
  picked s = [] ∧ status s = Idle ∧ length (shuffled s) = 12.
Proof.
  assert (H : is_Some (loadItems None !! 0)) by (eexists; reflexivity).
  destruct (mount_fresh draws None H) as (H1 & H2 & _ & H4 & _).
  split; [exact H1|]. split; [exact H2|exact H4].
Defined.

(** X5.  On a list of at least two items, next() moves to the following
    item, the first one after the last, and starts a fresh attempt on it:
    nothing picked, nothing revealed, status [Idle], a new bank of
    [clamp(len(U) + 6, 12, 16)] tiles, none of them empty, where [U] is the
    new normalized target upper-cased. *)
Theorem next_starts_afresh (g : rng) (s : state) :
  2 ≤ length (items s) → index s < length (items s) →
  let s' := next g s in
  items s' = items s
  ∧ index s' = (index s + 1) `mod` length (items s)
  ∧ is_Some (current s')
  ∧ picked s' = [] ∧ status s' = Idle ∧ revealed s' = 0
  ∧ length (shuffled s') = bankSize (length (toUpperCase (normalizedTarget s')))
  ∧ Forall (λ c, c ≠ []) (shuffled s').
Proof. apply next_moves. Qed.

Lemma next_starts_afresh_dragon :
  let s' := next draws (run (spellDRAGO ++ [Check]) dragonStart) in
  index s' = 1 ∧ picked s' = [] ∧ status s' = Idle.
Proof.
  destruct (next_starts_afresh draws (run (spellDRAGO ++ [Check]) dragonStart))
    as (_ & H2 & _ & H4 & H5 & _); [vm_compute; lia|vm_compute; lia|].
  split; [exact H2|]. split; [exact H4|exact H5].
Defined.

(** X6.  On a list of one item (or none) next() changes nothing: the index
    stays 0, the effect does not run, and the attempt under way goes on
    with its picked tiles, its revealed count and its status. *)
Theorem next_on_single_item (g : rng) (s : state) :
  length (items s) ≤ 1 → index s = 0 → next g s = s.
Proof. apply next_single. Qed.

Lemma next_on_single_item_hyphen :
  next draws (run [Hint; Check] hyphenStart) = run [Hint; Check] hyphenStart.
Proof.
  apply next_on_single_item; [vm_compute; lia|reflexivity].
Defined.

(** X7.  In every state the component reaches while the session store
    takes every upload, the word list in play is the list that a restart
    would load from the session store: the stored list when there is one,
    the built-in one otherwise. *)
Theorem store_mirrors_list (s : state) :
  reachableStoring s → items s = loadItems (sessionStorage s).
Proof.
  revert s. apply reachableStoring_ind.
  - intros g store. by destruct (mount_fields g store) as (-> & _ & ->).
  - intros e s He _ IH.
    destruct (handle_frame e s He)
      as [(-> & -> & _)|[(l & -> & -> & _)|(-> & -> & _)]]; done.
Qed.

Lemma sampleState_reachable : reachableStoring sampleState.
Proof.
  exists draws, None, sampleEvents. split; [|done].
  unfold sampleEvents. repeat constructor.
Qed.

Lemma store_mirrors_list_sample :
  items sampleState = loadItems (sessionStorage sampleState).
Proof. exact (store_mirrors_list sampleState sampleState_reachable). Defined.

(** X8.  In every state the component reaches on a non-empty word list
    while the session store takes every upload, the index is a position of
    the list, so that there is a current item. *)
Theorem index_in_range (s : state) :
  reachableStoring s → items s ≠ [] →
  index s < length (items s) ∧ is_Some (current s).
Proof.
  intros Hreach Hne.
  cut (index s < length (items s)).
  { intros H. split; [done|]. by apply lookup_lt_is_Some. }
  revert s Hreach Hne. apply (reachableStoring_ind (λ s, items s ≠ [] → _)).
  - intros g store Hne. destruct (mount_fields g store) as (Hi & -> & _).
    destruct (items (mount g store)); [done|simpl; lia].
  - intros e s He _ IH Hne.
    assert (H0 : 0 < length (items (handle e s))).
    { destruct (items (handle e s)); [done|simpl; lia]. }
    destruct (handle_frame e s He)
      as [(Hi & _ & [Hx|[Hx|[Hx Hlt]]])|[(l & _ & _ & Hx)|(_ & _ & Hx)]];
      rewrite Hx; try done.
    + rewrite Hi in Hne |- *. by apply IH.
    + by rewrite Hi.
Qed.

Lemma index_in_range_sample :
  index sampleState < length (items sampleState).
Proof.
  assert (Hne : items sampleState ≠ []) by (vm_compute; discriminate).
  exact (proj1 (index_in_range sampleState sampleState_reachable Hne)).
Defined.

(** X9.  During an attempt (from the initialisation of a puzzle, through
    pick, removeLast, hint, check, reset and reshuffles with nothing picked)
    the revealed count and the number of picked tiles never exceed the
    number of letter slots, which is the number of letters of the target;
    and each of the four operations leaves the revealed count as it is or
    adds one to it. *)
Theorem reveal_bounds (bank : list jsstring) (s : state) (o : op) :
  attempt bank s →
  letterSlotCount s = length (lettersOf (target s))
  ∧ revealed s ≤ letterSlotCount s
  ∧ length (picked s) ≤ letterSlotCount s
  ∧ revealed s ≤ revealed (step o s) ≤ revealed s + 1.
Proof.
  intros H. split; [apply letterSlotCount_letters|].
  destruct (bounds_attempt bank s H) as [H1 H2].
  split; [done|]. split; [done|apply revealed_step].
Qed.

Lemma reveal_bounds_dragon :
  let s := run [Hint; Pick 9; Hint; Hint; Hint; Hint; Hint; Hint; Hint] dragonStart in
  revealed s ≤ letterSlotCount s ∧ length (picked s) ≤ letterSlotCount s.
Proof.
  intros s.
  assert (H : attempt (shuffled dragonStart) s).
  { apply attempt_run, attempt_mount. eexists. reflexivity. }
  destruct (reveal_bounds (shuffled dragonStart) s Hint H) as (_ & H1 & H2 & _).
  exact (conj H1 H2).
Defined.

(** X10.  Whatever is done on a puzzle (the four operations, reshuffles at
    any time, resets), no letter is made up: the non-empty bank tiles
    together with the picked letters stay a sub-multiset of what they were,
    provided no picked tile was blank to begin with. *)
Theorem letters_never_created (es : list event) (s : state) :
  Forall onPuzzle es → Forall (λ p, ch p ≠ []) (picked s) →
  lettersInPlay (play es s) ⊆+ lettersInPlay s.
Proof. apply lettersInPlay_play. Qed.

Lemma letters_never_created_dragon :
  lettersInPlay
    (play [Op (Pick 7); ShuffleBank draws; Op RemoveLast; Reset draws] dragonStart)
  ⊆+ lettersInPlay dragonStart.
Proof.
  apply letters_never_created.
  - repeat constructor.
  - vm_compute. constructor.
Defined.

(** X11.  A freshly initialised puzzle on a target of ASCII and Cyrillic
    code units (where the seed is the one of the runtime) whose normalized,
    upper-cased form has at most 16 code units can be solved: there are as
    many bank positions as letter slots whose tiles, picked in that order,
    make check() yield [Correct]. *)
Theorem fresh_puzzle_solvable (g : rng) (s : state) :
  is_Some (current s) →
  Forall (λ c, plain c) (target s) →
  length (toUpperCase (normalizedTarget s)) ≤ 16 →
  ∃ ks, length ks = letterSlotCount s
        ∧ status (check (run (Pick <$> ks) (initPuzzle g s))) = Correct.
Proof. intros Hcur _. by apply solve_fresh. Qed.

Lemma fresh_puzzle_solvable_hyphen :
  ∃ ks, length ks = 2
        ∧ status (check (run (Pick <$> ks) hyphenStart)) = Correct.
Proof.
  apply (fresh_puzzle_solvable draws
           (State [Item.mk (str "A-B") None] 0 [] [] Idle 0
              (Some [Item.mk (str "A-B") None]))).
  - eexists. reflexivity.
  - by_evaluation.
  - vm_compute. lia.
Defined.

(** X12.  With no hint used, check() yields [Correct] whenever the picked
    tiles stand, in order, for the letters of the target (each tile being
    its letter in upper or lower case); the spaces and punctuation of the
    target are taken from the target itself.  check() has no condition on
    the status. *)
Theorem check_accepts_spelling (s : state) :
  is_Some (current s) → revealed s = 0 →
  Forall2 (λ p c, sameLetter (ch p) c) (picked s) (lettersOf (target s)) →
  status (check s) = Correct
  ∧ ∀ c, sameLetter [c] c ∧ sameLetter [upperUnit c] c
         ∧ sameLetter [lowerUnit c] c.
Proof.
  intros [it Hit] Hrev H. split.
  - rewrite (check_current s it Hit). simpl. rewrite Hrev.
    by apply verdict_spelled.
  - intros c. unfold sameLetter. split; [done|]. split.
    + apply (normalizeWord_upperUnits [c]).
    + apply (normalizeWord_toLowerCase [c]).
Qed.

Lemma check_accepts_spelling_mother :
  status (check (run spellMOTHERINLAW motherStart)) = Correct.
Proof.
  apply check_accepts_spelling.
  - vm_compute. eexists. reflexivity.
  - vm_compute. reflexivity.
  - unfold sameLetter. by_evaluation.
Defined.

(** X13.  On a target made of letters only, check() yields [Correct]
    whenever the picked tiles stand, in order, for the letters after the
    first [revealed] ones: hints and picks add up as intended there. *)
Theorem check_accepts_after_hints (s : state) :
  is_Some (current s) →
  Forall (λ c, isLetter c) (target s) →
  Forall2 (λ p c, sameLetter (ch p) c) (picked s) (drop (revealed s) (target s)) →
  status (check s) = Correct.
Proof.
  intros [it Hit] Hall H.
  rewrite (check_current s it Hit). simpl. by apply verdict_revealed.
Qed.

Lemma check_accepts_after_hints_dragon :
  status (check (run [Hint; Hint; Pick 2; Pick 4; Pick 10; Pick 3] dragonStart))
  = Correct.
Proof.
  apply check_accepts_after_hints.
  - vm_compute. eexists. reflexivity.
  - by_evaluation.
  - unfold sameLetter. by_evaluation.
Defined.

(** X14.  [parseTXT] reads back what was written: the lines [WORD] or
    [WORD | HINT] of any list of valid entries (clean word and hint, no
    [|] and no line break inside) parse to these entries, in order. *)
Theorem parseTXT_round_trip (entries : list Item.t) :
  Forall (λ it, validEntry it) entries → parseTXT (textOf entries) = entries.
Proof. apply parseTXT_textOf. Qed.

Lemma parseTXT_round_trip_sample : parseTXT (textOf sampleEntries) = sampleEntries.
Proof.
  apply parseTXT_round_trip.
  repeat (constructor; [vm_compute; exact I|]). constructor.
Defined.

(** X15.  [parseCSV] reads back what was written: the rows [WORD] or
    [WORD,HINT] of any list of valid entries (clean cells without delimiter
    or line break) parse to these entries when they follow the header row
    [word,hint]; without a header row they do too, unless the first word is
    itself [word] in some case, which is then taken for the header. *)
Theorem parseCSV_round_trip (entries : list Item.t) :
  Forall (λ it, validRow it) entries →
  parseCSV (joinLines (str "word,hint" :: (csvLine <$> entries))) = entries
  ∧ ∀ it rest,
      entries = it :: rest →
      parseCSV (joinLines (csvLine <$> entries)) =
      if bool_decide (toLowerCase (Item.word it) = str "word") then rest
      else entries.
Proof.
  intros Hvalid. split.
  - rewrite parseCSV_lines; [|done|by vm_compute|by_evaluation].
    by rewrite bool_decide_true by (by vm_compute).
  - intros it rest ->. apply Forall_cons in Hvalid as [Hit Hrest].
    destruct (csvLine_clean it Hit) as [Hne Hbr].
    rewrite fmap_cons, parseCSV_lines by done.
    rewrite first_cell_csvLine, csvRow_csvLine by done.
    change (toLowerCase <$> Some (Item.word it))
      with (Some (toLowerCase (Item.word it))).
    destruct (decide (toLowerCase (Item.word it) = str "word")) as [E|E].
    + rewrite !bool_decide_true; [done|done|by rewrite E].
    + rewrite !bool_decide_false; [done|done|]. by intros [= ?].
Qed.

Lemma parseCSV_round_trip_sample :
  parseCSV (joinLines (str "word,hint" :: (csvLine <$> sampleEntries)))
  = sampleEntries.
Proof.
  assert (H : Forall (λ it, validRow it) sampleEntries) by by_evaluation.
  exact (proj1 (parseCSV_round_trip sampleEntries H)).
Defined.

(** X16.  A JSON upload reads back a list written with one object per
    item: when [JSON.parse] returns the array of the objects
    [{word, hint}] of items whose word is trimmed and not empty and whose
    hint, if any, is not empty, the parse yields these items, in order. *)
Theorem json_round_trip (txt : jsstring) (q : bool) (l : list Item.t) :
  Forall (λ it, validObject it) l →
  parseFile (File (str "json") txt (Some (jsonOf l)) q) = Some l.
Proof. apply parseFile_jsonOf. Qed.

Lemma json_round_trip_sample :
  parseFile (File (str "json") [] (Some (jsonOf sampleEntries)) false)
  = Some sampleEntries.
Proof.
  assert (H : Forall (λ it, validObject it) sampleEntries) by by_evaluation.
  exact (json_round_trip [] false sampleEntries H).
Defined.

(** X17.  A JSON upload is rejected, and leaves the state as it is, with
    the runtime's error when [JSON.parse] throws or when the array holds a
    [null], and with the no-words error when the value is not an array or
    is the empty array. *)
Theorem json_rejections (g : rng) (txt : jsstring) (q : bool) (s : state) :
  onUpload g (File (str "json") txt None q) s = (Some RuntimeError, s)
  ∧ (∀ elems, JNull ∈ elems →
       onUpload g (File (str "json") txt (Some (JArray elems)) q) s
       = (Some RuntimeError, s))
  ∧ (∀ j, (∀ elems, j ≠ JArray elems) →
       onUpload g (File (str "json") txt (Some j) q) s = (Some NoWords, s))
  ∧ onUpload g (File (str "json") txt (Some (JArray [])) q) s
    = (Some NoWords, s).
Proof.
  split; [done|]. split; [|split; [|done]].
  - intros elems Hnull. unfold onUpload. rewrite parseFile_json.
    cbn [mbind option_bind]. by rewrite mapM_jsonItem_null.
  - intros j Hj. unfold onUpload. rewrite parseFile_json.
    cbn [mbind option_bind]. destruct j; try done. by destruct (Hj elems).
Qed.

Lemma json_rejections_sample :
  onUpload draws (File (str "json") [] (Some (JArray [JNull])) false) dragonStart
  = (Some RuntimeError, dragonStart)
  ∧ onUpload draws (File (str "json") [] (Some (JObject [])) false) dragonStart
    = (Some NoWords, dragonStart).
Proof.
  destruct (json_rejections draws [] false dragonStart) as (_ & H1 & H2 & _).
  split.
  - apply H1. by left.
  - apply H2. intros elems. discriminate.
Defined.

(** X18.  No parser yields an item with an empty word.  An upload whose
    parse is not empty installs the first 20 items of the deduplicated
    list.  When the session store takes the list, the upload reports no
    error, sets the index to 0 and stores the installed list; when the store
    refuses it, the list is installed all the same, the index and the store
    stay as they were, and the error is reported.  When the parsed words are
    of ASCII and Cyrillic code units, the keys of the installed items are
    not empty and pairwise different. *)
Theorem upload_outcome (g : rng) (f : file) (s : state) (parsed : list Item.t) :
  parseFile f = Some parsed → parsed ≠ [] →
  let s' := (onUpload g f s).2 in
  Forall (λ it, Item.word it ≠ []) parsed
  ∧ items s' = take 20 (dedupe parsed)
  ∧ length (items s') ≤ 20
  ∧ (storeThrows f = false →
     (onUpload g f s).1 = None
     ∧ index s' = 0 ∧ sessionStorage s' = Some (items s'))
  ∧ (storeThrows f = true →
     (onUpload g f s).1 = Some RuntimeError
     ∧ index s' = index s ∧ sessionStorage s' = sessionStorage s)
  ∧ (Forall plainWord parsed →
     NoDup (key <$> items s') ∧ Forall (λ it, key it ≠ []) (items s')).
Proof.
  intros Hp Hne s'. subst s'.
  split; [by eapply parseFile_words|].
  split; [by apply upload_installed|].
  split; [rewrite (upload_installed g f s parsed Hp Hne), length_take; lia|].
  split; [|split].
  - intros Hq.
    by destruct (upload_accepted g f s parsed Hp Hne Hq) as (-> & -> & -> & ->).
  - intros Hq.
    by destruct (upload_refused g f s parsed Hp Hne Hq) as (-> & _ & -> & ->).
  - intros Hplain. rewrite (upload_installed g f s parsed Hp Hne).
    destruct (dedupe_keys parsed Hplain) as [Hnd Hkeys]. split.
    + eapply sublist_NoDup; [exact Hnd|]. apply fmap_sublist, sublist_take.
    + by apply Forall_take.
Qed.

Lemma upload_outcome_sample :
  let s' := (onUpload draws sampleFile dragonStart).2 in
  length (items s') ≤ 20 ∧ index s' = 0 ∧ NoDup (key <$> items s').
Proof.
  assert (Hp : parseFile sampleFile = Some sampleEntries).
  { unfold sampleFile. rewrite parseFile_txt, parseTXT_textOf; [done|].
    by_evaluation. }
  assert (Hne : sampleEntries ≠ []) by discriminate.
  assert (Hplain : Forall plainWord sampleEntries).
  { unfold plainWord. by_evaluation. }
  pose proof (upload_outcome draws sampleFile dragonStart sampleEntries Hp Hne)
    as H.
  cbv zeta in H. destruct H as (_ & _ & H1 & H2 & _ & H3).
  split; [exact H1|]. split; [exact (proj1 (proj2 (H2 eq_refl)))|].
  exact (proj1 (H3 Hplain)).
Defined.

(** An upload that the store refuses, on the second built-in word: the list
    of one word is installed, the index stays 1, the store stays empty, and
    there is no current item. *)
Lemma refused_upload_example :
  let s := next draws dragonStart in
  let r := onUpload draws refusedFile s in
  r.1 = Some RuntimeError
  ∧ items r.2 = [Item.mk (str "PANDA") None]
  ∧ index r.2 = 1 ∧ sessionStorage r.2 = None ∧ current r.2 = None.
Proof. vm_compute. repeat split; reflexivity. Qed.

(** ** Deduplication again, and strictness of the check *)

Lemma upperUnit_idemp c : upperUnit (upperUnit c) = upperUnit c.
Proof.
  assert (H : ¬ (97 ≤ upperUnit c ≤ 122 ∨ 0x430 ≤ upperUnit c ≤ 0x45F)%N).
  { unfold upperUnit. case_between; lia. }
  revert H. generalize (upperUnit c). intros x Hx.
  unfold upperUnit. case_between; lia.
Qed.

Lemma plain_upperUnit c : plain c → plain (upperUnit c).
Proof.
  unfold plain, upperUnit.
  rewrite !orb_True, !Is_true_true, !N.ltb_lt, !between_spec.
  case_between; lia.
Qed.

Lemma display_idemp it : plainWord it → display (display it) = display it.
Proof.
  unfold plainWord, display. intros H. simpl. f_equal.
  rewrite (toUpperCase_plain (Item.word it)) by done.
  rewrite toUpperCase_plain.
  - rewrite <-list_fmap_compose. apply list_fmap_ext. intros _ c _.
    apply upperUnit_idemp.
  - apply Forall_fmap. eapply Forall_impl; [exact H|].
    intros c Hc. by apply plain_upperUnit.
Qed.

Lemma dedupe_idemp arr : Forall plainWord arr → dedupe (dedupe arr) = dedupe arr.
Proof.
  intros Hplain.
  destruct (dedupe_keys arr Hplain) as [Hnd Hkeys].
  rewrite dedupe_distinct by done.
  rewrite <-(list_fmap_id (dedupe arr)) at 2. apply list_fmap_ext.
  intros j x Hx. apply list_elem_of_lookup_2 in Hx.
  pose proof (sublist_submseteq _ _ (dedupe_sublist arr)) as Hsub.
  apply (elem_of_submseteq _ _ _ Hx) in Hsub.
  apply list_elem_of_fmap in Hsub as (y & -> & Hy).
  rewrite Forall_forall in Hplain. by apply display_idemp, Hplain.
Qed.

Lemma normalizeWord_letters w :
  Forall (λ c, isLetter c) w → normalizeWord w = toLowerCase w.
Proof.
  intros H. apply normalizeWord_of_clean.
  eapply Forall_impl; [exact H|]. intros c Hc.
  pose proof (isLetter_cased c Hc) as Hcased.
  cbv beta. rewrite (cased_not_space c), (cased_not_punct c) by done.
  simpl. tauto.
Qed.

Lemma rebuildFrom_letters u pos tgt :
  Forall (λ c, isLetter c) tgt →
  rebuildFrom (split1 u) pos ((λ c, Slot.mk c (isLetter c) false) <$> tgt)
  = take (length tgt) (drop pos u).
Proof.
  intros Hall. revert pos. induction Hall as [|c tgt Hc Hall IH]; intros pos; [done|].
  rewrite fmap_cons. cbn [rebuildFrom Slot.isLetter Slot.revealed Slot.char].
  apply Is_true_true in Hc. rewrite Hc. cbn [negb length].
  rewrite IH. unfold split1. rewrite list_lookup_fmap.
  destruct (u !! pos) as [x|] eqn:E; cbn [fmap option_fmap option_map default].
  - by rewrite (drop_S u x pos E).
  - apply lookup_ge_None in E. rewrite !drop_ge by lia. by rewrite take_nil.
Qed.

(** X19.  [dedupe] keeps a subsequence of its input, each kept item with
    its word upper-cased and its hint untouched: the kept items have keys
    that are not empty and pairwise different, and every non-empty key of
    the input is the key of a kept item.  The result is never longer than
    the input.  When the words are of ASCII and Cyrillic code units, the
    keys of the result are again not empty and pairwise different, and
    deduplicating it again changes nothing. *)
Theorem dedupe_properties (arr : list Item.t) :
  (∃ kept,
     kept `sublist_of` arr
     ∧ dedupe arr = display <$> kept
     ∧ NoDup (key <$> kept)
     ∧ Forall (λ it, key it ≠ []) kept
     ∧ ∀ it, it ∈ arr → key it ≠ [] → key it ∈ key <$> kept)
  ∧ length (dedupe arr) ≤ length arr
  ∧ (Forall plainWord arr →
     NoDup (key <$> dedupe arr)
     ∧ Forall (λ it, key it ≠ []) (dedupe arr)
     ∧ dedupe (dedupe arr) = dedupe arr).
Proof.
  split; [apply dedupe_kept|]. split.
  { rewrite <-(length_fmap display arr). apply sublist_length, dedupe_sublist. }
  intros Hplain. destruct (dedupe_keys arr Hplain) as [Hnd Hkeys].
  split; [done|]. split; [done|]. by apply dedupe_idemp.
Qed.

Lemma dedupe_properties_sample :
  NoDup (key <$> dedupe sampleEntries)
  ∧ dedupe (dedupe sampleEntries) = dedupe sampleEntries.
Proof.
  assert (Hplain : Forall plainWord sampleEntries).
  { unfold plainWord. by_evaluation. }
  destruct (proj2 (proj2 (dedupe_properties sampleEntries)) Hplain)
    as (H1 & _ & H2).
  exact (conj H1 H2).
Defined.

(** With a sharp s the keys of the result can coincide: [ß] and [ss] have
    different keys, both are kept, as [SS] and [SS]. *)
Lemma dedupe_sharp_s :
  dedupe [Item.mk [0xDF%N] None; Item.mk (str "ss") None]
  = [Item.mk (str "SS") None; Item.mk (str "SS") None].
Proof. vm_compute. reflexivity. Qed.

(** X20.  A pick that the engine accepts (status [Idle], tile present and
    not yet placed, a letter slot free) appends that tile with its bank
    index to the picked tiles, empties that one bank position, and leaves
    every other bank position and all the rest of the state as they
    were. *)
Theorem pick_takes_one_tile (k : nat) (s : state) :
  status s = Idle → validPick k s →
  ∃ c, shuffled s !! k = Some c ∧ c ≠ []
    ∧ picked (pick k s) = picked s ++ [TilePick c k]
    ∧ shuffled (pick k s) !! k = Some []
    ∧ (∀ j, j ≠ k → shuffled (pick k s) !! j = shuffled s !! j)
    ∧ length (shuffled (pick k s)) = length (shuffled s)
    ∧ status (pick k s) = Idle ∧ revealed (pick k s) = revealed s
    ∧ items (pick k s) = items s ∧ index (pick k s) = index s.
Proof.
  intros Hst Hv. destruct (pick_valid k s Hst Hv) as (c & Hk & Hc & ->).
  exists c. simpl. split; [done|]. split; [done|]. split; [done|].
  split; [apply list_lookup_insert_eq; by eapply lookup_lt_Some|].
  split; [intros j Hj; by apply list_lookup_insert_ne|].
  split; [apply length_insert|done].
Qed.

Lemma pick_takes_one_tile_dragon :
  ∃ c, shuffled dragonStart !! 7 = Some c
       ∧ picked (pick 7 dragonStart) = [TilePick c 7].
Proof.
  destruct (pick_takes_one_tile 7 dragonStart) as (c & H1 & _ & H2 & _).
  - vm_compute. reflexivity.
  - vm_compute. exact I.
  - exists c. split; [exact H1|exact H2].
Defined.

(** X21.  The check is strict.  On a target made of letters only, with no
    hint used and one-letter tiles picked, check() yields [Correct] only
    when there are at least as many picked tiles as letters and the first
    ones spell the target, letter by letter, up to case: an anagram or a
    shorter word is refused. *)
Theorem check_is_strict (s : state) (u : jsstring) :
  is_Some (current s) → revealed s = 0 →
  Forall (λ c, isLetter c) (target s) →
  ch <$> picked s = split1 u → Forall (λ c, isLetter c) u →
  status (check s) = Correct →
  length (target s) ≤ length u
  ∧ toLowerCase (take (length (target s)) u) = toLowerCase (target s).
Proof.
  intros [it Hit] Hrev Htgt Hu Hletters.
  rewrite (check_current s it Hit). simpl. rewrite Hrev.
  unfold verdict, rebuildWithPunctuation. case_bool_decide as Heq; [|done].
  intros _. rewrite displayWordOf_0, Hu, rebuildFrom_letters, drop_0 in Heq by done.
  rewrite !normalizeWord_letters in Heq by (done || by apply Forall_take).
  split; [|done].
  apply (f_equal length) in Heq.
  rewrite !length_toLowerCase, length_take in Heq. lia.
Qed.

Lemma check_is_strict_dragon :
  let s := run (spellDRAGO ++ [Pick 3; Check]) dragonStart in
  toLowerCase (take 6 (str "DRAGON")) = toLowerCase (target s).
Proof.
  intros s.
  refine (proj2 (check_is_strict s (str "DRAGON") _ _ _ _ _ _)).
  - vm_compute. eexists. reflexivity.
  - vm_compute. reflexivity.
  - by_evaluation.
  - vm_compute. reflexivity.
  - by_evaluation.
  - vm_compute. reflexivity.
Defined.

(** ** What the slots show *)

Lemma findIndex_letterSlots (h : nat → bool) (o idx : nat) (tgt : jsstring) c :
  tgt !! idx = Some c → isLetter c →
  findIndex (λ x : nat * Slot.t, bool_decide (x.1 = o + idx))
    (filter (λ x : nat * Slot.t, Slot.isLetter x.2)
       (imap (λ i x, (o + i, x))
          (imap (λ j c, Slot.mk c (isLetter c) (h j)) tgt)))
  = Z.of_nat (length (lettersOf (take idx tgt))).
Proof.
  revert h o idx. induction tgt as [|c0 tgt IH]; intros h o idx Hidx Hc; [done|].
  rewrite !imap_cons.
  assert (Hext : imap ((λ i x, (o + i, x)) ∘ S)
                   (imap ((λ j c, Slot.mk c (isLetter c) (h j)) ∘ S) tgt)
                 = imap (λ i x, (S o + i, x))
                     (imap (λ j c, Slot.mk c (isLetter c) ((h ∘ S) j)) tgt)).
  { apply imap_ext. intros i x _. simpl. f_equal. lia. }
  rewrite Hext. clear Hext.
  destruct idx as [|idx].
  - injection Hidx as ->. rewrite filter_cons_True by done.
    cbn [findIndex fst]. by rewrite bool_decide_true by lia.
  - cbn [lookup list_lookup] in Hidx.
    specialize (IH (h ∘ S) (S o) idx Hidx Hc).
    replace (o + S idx) with (S o + idx) by lia.
    cbn [take]. unfold lettersOf in *.
    destruct (isLetter c0) eqn:E.
    + rewrite filter_cons_True by done.
      rewrite (filter_cons_True _ c0) by (cbv beta; by rewrite E).
      cbn [findIndex fst]. rewrite bool_decide_false by lia.
      rewrite IH. cbn [length].
      destruct (Z.ltb_spec (Z.of_nat (length (filter (λ c, isLetter c) (take idx tgt)))) 0);
        lia.
    + rewrite filter_cons_False by (simpl; tauto).
      rewrite (filter_cons_False _ c0) by (cbv beta; rewrite E; simpl; tauto).
      exact IH.
Qed.

Lemma slotText_no_hint s idx c :
  revealed s = 0 → target s !! idx = Some c →
  slotText s idx =
  if isLetter c
  then default [] (ch <$> picked s !! length (lettersOf (take idx (target s))))
  else [c].
Proof.
  intros Hrev Hc. unfold slotText, displayWord, displayWordOf.
  rewrite list_lookup_imap, Hc. cbn [fmap option_fmap option_map Slot.isLetter Slot.char].
  destruct (isLetter c) eqn:E; [|done].
  rewrite bool_decide_false by lia.
  unfold renderPickedChar, letterSlots. rewrite Hrev.
  rewrite (findIndex_letterSlots (λ k, bool_decide (k < 0)) 0 idx (target s) c Hc)
    by (by rewrite E).
  rewrite Z.sub_0_r.
  destruct (Z.ltb_spec (Z.of_nat (length (lettersOf (take idx (target s))))) 0);
    [lia|].
  by rewrite Nat2Z.id.
Qed.

(** X22.  With no hint used, a slot of the target shows its own character
    when that is not a letter, and otherwise the picked tile whose rank is
    the number of letters before the slot (nothing when fewer tiles are
    picked): the n-th letter slot shows the n-th pick. *)
Theorem slot_shows_pick (s : state) (idx : nat) (c : N) :
  revealed s = 0 → target s !! idx = Some c →
  slotText s idx =
  if isLetter c
  then default [] (ch <$> picked s !! length (lettersOf (take idx (target s))))
  else [c].
Proof. apply slotText_no_hint. Qed.

Lemma slot_shows_pick_mother :
  let s := run spellMOTHERINLAW motherStart in
  slotText s 6 = str "-" ∧ slotText s 7 = str "I".
Proof.
  intros s.
  assert (Hrev : revealed s = 0) by (vm_compute; reflexivity).
  assert (H6 : target s !! 6 = Some 45%N) by (vm_compute; reflexivity).
  assert (H7 : target s !! 7 = Some 73%N) by (vm_compute; reflexivity).
  split.
  - rewrite (slot_shows_pick s 6 45%N Hrev H6). vm_compute. reflexivity.
  - rewrite (slot_shows_pick s 7 73%N Hrev H7). vm_compute. reflexivity.
Defined.
